(** * Group list engine and preview synchronizer of the on-call override form

  Shallow embedding of
    - [grafana-plugin/src/components/UserGroups/UserGroups.tsx]
    - [grafana-plugin/src/containers/RotationForm/ScheduleOverrideForm.tsx]

  A group list is a JavaScript array of arrays of user keys
  ([Array<Array<User['pk']>>]); it is embedded as [list (list string)].
  A callback that may or may not call [onChange] returns an [option]:
  [Some v] stands for [onChange(v)], [None] for a return without a call. *)

From stdpp Require Import base list strings gmap.
From Stdlib Require Import ZArith Lia.

(** ** JavaScript array primitives used by the components *)

Section js_array.
Context {A : Type}.

(** [arr.filter((item, itemIndex) => f(item, itemIndex))], the index
    starting at [itemIndex]. *)
Fixpoint filterWithIndex (f : A → nat → bool) (itemIndex : nat) (arr : list A) : list A :=
  match arr with
  | [] => []
  | item :: rest =>
      if f item itemIndex
      then item :: filterWithIndex f (S itemIndex) rest
      else filterWithIndex f (S itemIndex) rest
  end.

(** [array-move]'s [arrayMoveImmutable] (third-party package), on the
    non-negative indices a sortable list reports: when [fromIndex] is a
    position of the array, [splice(fromIndex, 1)] takes the element out
    and [splice(toIndex, 0, item)] puts it back, a start past the end
    meaning the end; otherwise the copy is returned as it is. *)
Definition arrayMoveImmutable (array : list A) (fromIndex toIndex : nat) : list A :=
  match array !! fromIndex with
  | Some item =>
      let spliced := delete fromIndex array in
      take toIndex spliced ++ item :: drop toIndex spliced
  | None => array
  end.

End js_array.

(** ** components/UserGroups/UserGroups.tsx *)

Module UserGroups.

(** [User['pk']] is a string. *)
Abbreviation UserPk := string.

(** The props the callbacks read. *)
Record UserGroupsProps := {
  value : list (list UserPk);
  isMultipleGroups : bool;
}.

(** [handleAddUserGroup]: [onChange([...value, []])]. *)
Definition handleAddUserGroup (value : list (list UserPk)) : list (list UserPk) :=
  value ++ [[]].

(** *** handleDeleteUser *)

(** Inner loop [for (j = 0; j < users.length; j++) { k++; if (k === index) ... }]:
    [inl j] when the test succeeds at [j], [inr k] with the counter after
    the loop otherwise. *)
Fixpoint scanUsers (users : list UserPk) (j : nat) (k index : Z) : nat + Z :=
  match users with
  | [] => inr k
  | _ :: rest =>
      let k := (k + 1)%Z in
      if (k =? index)%Z then inl j else scanUsers rest (S j) k index
  end.

(** Outer loop [for (i = 0; i < value.length; i++)], resumed at group [i]
    with [rest] the groups not yet visited. *)
Fixpoint scanGroups (value rest : list (list UserPk)) (i : nat) (k index : Z)
  : option (list (list UserPk)) :=
  match rest with
  | [] => None
  | users :: rest' =>
      let k := (k + 1)%Z in
      match scanUsers users 0 k index with
      | inl j =>
          let newGroups := value in
          let newGroups :=
            <[i := filterWithIndex (λ _ itemIndex, negb (itemIndex =? j)) 0
                     (default [] (newGroups !! i))]> newGroups in
          Some (filter (λ group, length group ≠ 0) newGroups)
      | inr k' => scanGroups value rest' (S i) k' index
      end
  end.

(** [index] is a JavaScript number: any integer may be passed. *)
Definition handleDeleteUser (value : list (list UserPk)) (index : Z)
  : option (list (list UserPk)) :=
  scanGroups value value 0 (-1) index.

(** Number of times the two loops increment [k] when nothing matches:
    one slot per group and one per user. *)
Definition flatLength (value : list (list UserPk)) : nat :=
  sum_list (map (λ users, S (length users)) value).

(** *** handleUserAdd *)

(** [pk] arrives from the select widget and may be [undefined] ([None]).
    The result is the array passed to [onChange]. ([lastGroup.push(pk)]
    writes into the array object that [value] holds as well; the module
    [UserGroupsRefs] below keeps the objects apart.) *)
Definition handleUserAdd (value : list (list UserPk)) (pk : option UserPk)
  : option (list (list UserPk)) :=
  match pk with
  | None => None
  | Some pk =>
      if decide (pk = EmptyString) then None
      else
        let newGroups := value in
        match last newGroups with
        | None => Some (newGroups ++ [[pk]])
        | Some lastGroup =>
            Some (<[length newGroups - 1 := lastGroup ++ [pk]]> newGroups)
        end
  end.


(** *** The flattened model: UserGroups.types and UserGroups.helpers

    The two helpers imported on line 11 live in [UserGroups.helpers]. What
    the component itself fixes about them: [toPlainArray] takes the group
    list alone; every group occupies one slot of the flat array before its
    users, in both modes ([handleDeleteUser] counts it, [SortableList]
    hides it when [isMultipleGroups] is false); an item has [type 'item']
    and carries the user key in [data], or is a group header; and the
    second argument of [fromPlainArray] is [newIndex > items.length]. *)

(** Modelled from the spec: the [Item] type of [UserGroups.types], a tagged
    union of a member (its identifier and the index of the group that owns
    it) and a separator (the index of its group). *)
Inductive Item : Type :=
| ItemMember (memberId : UserPk) (ownerGroupIndex : nat)
| ItemSeparator (groupIndex : nat).

(** Modelled from the spec: [toPlainArray] of [UserGroups.helpers], the
    flattening. Groups appear in group-list order, each group's separator
    immediately before its members. *)
Fixpoint toPlainArrayFrom (groupIndex : nat) (groups : list (list UserPk)) : list Item :=
  match groups with
  | [] => []
  | group :: rest =>
      ItemSeparator groupIndex
        :: map (λ memberId, ItemMember memberId groupIndex) group
        ++ toPlainArrayFrom (S groupIndex) rest
  end.

(** Modelled from the spec: [toPlainArray(value)], the flattening of the
    whole group list; it returns the empty sequence for the empty list. *)
Definition toPlainArray (groups : list (list UserPk)) : list Item :=
  toPlainArrayFrom 0 groups.

(** Modelled from the spec: one item of the unflattening pass of
    [fromPlainArray]. A separator opens a group (empty until a member
    follows). A member joins the last group; it opens a group of its own
    when there is none yet, or when it is the final item of the sequence
    and [multiGroupMode] is set ("append a new trailing group containing
    only that member" when enabled, "append to the last group" otherwise). *)
Definition unflattenItem (multiGroupMode : bool) (len : nat)
    (memo : list (list UserPk)) (currentIndex : nat) (item : Item)
  : list (list UserPk) :=
  match item with
  | ItemMember memberId _ =>
      match last memo with
      | None => memo ++ [[memberId]]
      | Some lastGroup =>
          if multiGroupMode && (currentIndex =? len - 1)
          then memo ++ [[memberId]]
          else <[length memo - 1 := lastGroup ++ [memberId]]> memo
      end
  | ItemSeparator _ => memo ++ [[]]
  end.

(** Modelled from the spec: the pass of [fromPlainArray] over the items
    from position [currentIndex] on, [memo] being the groups read so far
    and [len] the length of the whole sequence. *)
Fixpoint unflattenFrom (multiGroupMode : bool) (len : nat) (items : list Item)
    (currentIndex : nat) (memo : list (list UserPk)) : list (list UserPk) :=
  match items with
  | [] => memo
  | item :: rest =>
      unflattenFrom multiGroupMode len rest (S currentIndex)
        (unflattenItem multiGroupMode len memo currentIndex item)
  end.

(** Modelled from the spec: [fromPlainArray] of [UserGroups.helpers], the
    unflattening, a left-to-right pass over the flat sequence. Empty groups
    are kept: pruning is left to the caller. *)
Definition fromPlainArray (items : list Item) (multiGroupMode : bool)
  : list (list UserPk) :=
  unflattenFrom multiGroupMode (length items) items 0 [].

(** *** onSortEnd *)

(** [items] is [toPlainArray(value)] (the [useMemo] on line 75). The
    indices come from the sortable list and are array positions. *)
Definition onSortEnd (props : UserGroupsProps) (oldIndex newIndex : nat)
  : list (list UserPk) :=
  let items := toPlainArray (value props) in
  let newPlainArray := arrayMoveImmutable items oldIndex newIndex in
  fromPlainArray newPlainArray (length items <? newIndex).


End UserGroups.

(** ** handleUserAdd on array objects

    In [handleUserAdd], [[...value]] copies the outer array only: its
    elements are the same array objects as those of [value], and
    [lastGroup.push(pk)] changes one of them in place. Here a group list is
    a list of references into a store of arrays. *)

Module UserGroupsRefs.
Import UserGroups.

(** The group list a list of references stands for in store [h]. *)
Definition read (h : gmap nat (list UserPk)) (value : list nat) : list (list UserPk) :=
  (λ r, default [] (h !! r)) <$> value.

(** Returns what is passed to [onChange], if anything, and the store
    after the call. *)
Definition handleUserAdd (h : gmap nat (list UserPk)) (value : list nat)
    (pk : option UserPk) : option (list nat) * gmap nat (list UserPk) :=
  match pk with
  | None => (None, h)
  | Some pk =>
      if decide (pk = EmptyString) then (None, h)
      else
        let newGroups := value in
        match last newGroups with
        | None =>
            let lastGroup := fresh (dom h) in
            (Some (newGroups ++ [lastGroup]), <[lastGroup := [pk]]> h)
        | Some lastGroup =>
            (Some newGroups, <[lastGroup := default [] (h !! lastGroup) ++ [pk]]> h)
        end
  end.

End UserGroupsRefs.

(** ** What SortableList renders (UserGroups.tsx, lines 86-102 and 147-170) *)

Module UserGroupsList.
Import UserGroups.

(** A [SortableItem] of the list, with its [index] prop: a user with its
    delete button ([renderItem]), a group header, or the disabled
    "Add user group +" element. *)
Inductive Element : Type :=
| UserElement (index : nat) (data : UserPk)
| SeparatorElement (index : nat) (groupIndex : nat)
| NewGroupElement (index : nat).

Definition elementIndex (el : Element) : nat :=
  match el with
  | UserElement index _ | SeparatorElement index _ | NewGroupElement index => index
  end.

(** [items.map((item, index) => ...)] from position [index] on: an item
    whose type is 'item' is always rendered, a group header only when
    [isMultipleGroups], otherwise [null]. *)
Fixpoint renderItems (isMultipleGroups : bool) (index : nat) (items : list Item)
  : list Element :=
  match items with
  | [] => []
  | item :: rest =>
      match item with
      | ItemMember data _ => [UserElement index data]
      | ItemSeparator groupIndex =>
          if isMultipleGroups then [SeparatorElement index groupIndex] else []
      end ++ renderItems isMultipleGroups (S index) rest
  end.

(** Line 161: the type of [items[items.length - 1]] is 'item'. *)
Definition lastIsItem (items : list Item) : bool :=
  match last items with
  | Some (ItemMember _ _) => true
  | _ => false
  end.

Definition SortableList (items : list Item) (isMultipleGroups : bool) : list Element :=
  renderItems isMultipleGroups 0 items
  ++ (if isMultipleGroups && lastIsItem items
      then [NewGroupElement (length items + 1)]
      else []).


(** The user keys a flat sequence carries (the [data] of its items of
    type 'item'), in order. *)
Definition itemMembers (items : list Item) : list UserPk :=
  omap (λ item, match item with
                | ItemMember data _ => Some data
                | ItemSeparator _ => None
                end) items.

End UserGroupsList.

(** ** containers/RotationForm/ScheduleOverrideForm.tsx *)

Module ScheduleOverrideForm.
Import UserGroups.

(** [Shift] of [models/schedule/schedule.types]: the fields the form reads. *)
Module Shift.
Record t : Type := {
  shift_start : string;
  shift_end : string;
  rolling_users : list (list UserPk);
}.
End Shift.

(** The object built by the [useMemo] on lines 123-132: the parameter
    snapshot sent to the preview and to create/update. *)
Record Params : Type := {
  rotation_start : string;
  shift_start : string;
  shift_end : string;
  rolling_users : list (list UserPk);
  frequency : option Z;
}.

(** A timeout registered with the runtime: its handle, the instant (in
    milliseconds) at which it is due, and the snapshot closed over by the
    [updatePreview] it will run. *)
Record Timer : Type := {
  timerId : nat;
  deadline : nat;
  callbackParams : Params;
}.

(** What the debounced callback keeps between calls: the runtime's pending
    timeouts, the handle it stored last, and the next free handle. *)
Record Debouncer : Type := {
  timers : list Timer;
  timeoutRef : option nat;
  nextTimerId : nat;
}.

(** A call of [updateRotationPreview] whose promise is not settled yet. *)
Record Request : Type := {
  requestId : nat;
  requestParams : Params;
}.

(** The preview collaborator as seen from the form: the unsettled
    requests, and two histories kept for the statements below: every
    request issued, with its instant, and the snapshot of every request
    whose [then] callback has run. *)
Record Network : Type := {
  inflight : list Request;
  nextRequestId : nat;
  requestLog : list (nat * Params);
  settleLog : list Params;
}.

Definition debounceWindow : nat := 200.

(** [clearTimeout(timeout.current)]: an unknown or spent handle clears
    nothing. *)
Definition clearTimeout (handle : option nat) (pending : list Timer) : list Timer :=
  match handle with
  | None => pending
  | Some id => filter (λ tm, timerId tm ≠ id) pending
  end.

(** Modelled from the spec: [useDebouncedCallback] of [utils/hooks]. Every
    call resets the fixed delay timer: the timer stored by the previous call
    is cleared and a new one is started, due [wait] milliseconds later; when
    it elapses the callback of that call runs once. *)
Definition debouncedCallback (wait : nat) (callback : Params) (time : nat)
    (d : Debouncer) : Debouncer :=
  {| timers := clearTimeout (timeoutRef d) (timers d)
               ++ [{| timerId := nextTimerId d;
                      deadline := time + wait;
                      callbackParams := callback |}];
     timeoutRef := Some (nextTimerId d);
     nextTimerId := S (nextTimerId d) |}.

(** [updatePreview], up to the promise: one call of
    [store.scheduleStore.updateRotationPreview(..., params)]. *)
Definition updatePreview (p : Params) (time : nat) (net : Network) : Network :=
  {| inflight := inflight net ++ [{| requestId := nextRequestId net; requestParams := p |}];
     nextRequestId := S (nextRequestId net);
     requestLog := requestLog net ++ [(time, p)];
     settleLog := settleLog net |}.

Definition emptyDebouncer : Debouncer :=
  {| timers := []; timeoutRef := None; nextTimerId := 0 |}.

Definition emptyNetwork : Network :=
  {| inflight := []; nextRequestId := 0; requestLog := []; settleLog := [] |}.

Section form.

(** [DateTime] of [@grafana/data] and the two conversions of
    [pages/schedule/Schedule.helpers] are taken as given. *)
Context {DateTime : Type}.
Context (getUTCString : DateTime → string → string).
Context (getDateTime : string → string → DateTime).

(** The props the model reads; [shiftStart0] and [shiftEnd0] are the
    initial values of the two date states, computed from [shiftMoment]. *)
Record Props : Type := {
  shiftId : string;
  currentTimezone : string;
  shiftStart0 : DateTime;
  shiftEnd0 : DateTime;
}.

(** The [useState] cells. *)
Record FormState : Type := {
  shiftStart : DateTime;
  shiftEnd : DateTime;
  userGroups : list (list UserPk);
  isOpen : bool;
}.

Record State : Type := {
  form : FormState;
  now : nat;
  debounce : Debouncer;
  net : Network;
}.

Definition params (props : Props) (f : FormState) : Params :=
  {| rotation_start := getUTCString (shiftStart f) (currentTimezone props);
     shift_start := getUTCString (shiftStart f) (currentTimezone props);
     shift_end := getUTCString (shiftEnd f) (currentTimezone props);
     rolling_users := userGroups f;
     frequency := None |}.

(** Line 90: [useState([[]])], and lines 85-88. *)
Definition initialForm (props : Props) : FormState :=
  {| shiftStart := shiftStart0 props;
     shiftEnd := shiftEnd0 props;
     userGroups := [[]];
     isOpen := false |}.

(** The body of the effect on lines 134-141, for a defined [shift]. *)
Definition hydrate (props : Props) (shift : Shift.t) (f : FormState) : FormState :=
  {| shiftStart := getDateTime (Shift.shift_start shift) (currentTimezone props);
     shiftEnd := getDateTime (Shift.shift_end shift) (currentTimezone props);
     userGroups := Shift.rolling_users shift;
     isOpen := isOpen f |}.

Definition setShiftStart (d : DateTime) (f : FormState) : FormState :=
  {| shiftStart := d; shiftEnd := shiftEnd f; userGroups := userGroups f; isOpen := isOpen f |}.

Definition setShiftEnd (d : DateTime) (f : FormState) : FormState :=
  {| shiftStart := shiftStart f; shiftEnd := d; userGroups := userGroups f; isOpen := isOpen f |}.

Definition setUserGroups (groups : list (list UserPk)) (f : FormState) : FormState :=
  {| shiftStart := shiftStart f; shiftEnd := shiftEnd f; userGroups := groups; isOpen := isOpen f |}.

Definition setIsOpen (b : bool) (f : FormState) : FormState :=
  {| shiftStart := shiftStart f; shiftEnd := shiftEnd f; userGroups := userGroups f; isOpen := b |}.

(** A state update that changes a dependency of [params]: the next render
    builds a new [params] object, so the effect on line 179 calls
    [handleChange], the debounced [updatePreview] of that render. *)
Definition rerender (props : Props) (f : FormState) (st : State) : State :=
  {| form := f;
     now := now st;
     debounce := debouncedCallback debounceWindow (params props f) (now st) (debounce st);
     net := net st |}.

(** [onChange={setUserGroups}]: a handler of [UserGroups] that returns
    without calling [onChange] changes nothing. *)
Definition onChange (props : Props) (result : option (list (list UserPk))) (st : State) : State :=
  match result with
  | Some groups => rerender props (setUserGroups groups (form st)) st
  | None => st
  end.

(** The clock reaches [t]: every timeout due by then fires, in the order
    it was registered, and runs its [updatePreview]. *)
Definition fireDue (t : nat) (st : State) : State :=
  {| form := form st;
     now := t;
     debounce :=
       {| timers := filter (λ tm, ¬ deadline tm ≤ t) (timers (debounce st));
          timeoutRef := timeoutRef (debounce st);
          nextTimerId := nextTimerId (debounce st) |};
     net :=
       foldl (λ n tm, updatePreview (callbackParams tm) (deadline tm) n) (net st)
             (filter (λ tm, deadline tm ≤ t) (timers (debounce st))) |}.

(** The promise of request [rid] is fulfilled: [.then(() => setIsOpen(true))]
    on lines 172-174. Nothing is compared with the current [params]. *)
Definition resolve (rid : nat) (st : State) : State :=
  match filter (λ r, requestId r = rid) (inflight (net st)) with
  | [] => st
  | r :: _ =>
      {| form := setIsOpen true (form st);
         now := now st;
         debounce := debounce st;
         net := {| inflight := filter (λ r, requestId r ≠ rid) (inflight (net st));
                   nextRequestId := nextRequestId (net st);
                   requestLog := requestLog (net st);
                   settleLog := settleLog (net st) ++ [requestParams r] |} |}
  end.

(** The promise is rejected: there is no handler. *)
Definition reject (rid : nat) (st : State) : State :=
  {| form := form st;
     now := now st;
     debounce := debounce st;
     net := {| inflight := filter (λ r, requestId r ≠ rid) (inflight (net st));
               nextRequestId := nextRequestId (net st);
               requestLog := requestLog (net st);
               settleLog := settleLog (net st) |} |}.

Inductive Event : Type :=
| UserAdd (pk : option UserPk)
| DeleteUser (index : Z)
| SortEnd (oldIndex newIndex : nat)
| SetShiftStart (d : DateTime)
| SetShiftEnd (d : DateTime)
| ShiftLoaded (shift : Shift.t)
| Tick (t : nat)
| Resolve (rid : nat)
| Reject (rid : nat).

(** The form renders [UserGroups] with [value={userGroups}] and
    [isMultipleGroups={false}] (lines 206-212). *)
Definition userGroupsProps (f : FormState) : UserGroupsProps :=
  {| value := userGroups f; isMultipleGroups := false |}.

Definition step (props : Props) (st : State) (e : Event) : State :=
  match e with
  | UserAdd pk => onChange props (handleUserAdd (userGroups (form st)) pk) st
  | DeleteUser index => onChange props (handleDeleteUser (userGroups (form st)) index) st
  | SortEnd oldIndex newIndex =>
      onChange props (Some (onSortEnd (userGroupsProps (form st)) oldIndex newIndex)) st
  | SetShiftStart d => rerender props (setShiftStart d (form st)) st
  | SetShiftEnd d => rerender props (setShiftEnd d (form st)) st
  | ShiftLoaded shift => rerender props (hydrate props shift (form st)) st
  | Tick t => if decide (now st ≤ t) then fireDue t st else st
  | Resolve rid => resolve rid st
  | Reject rid => reject rid st
  end.

Definition run (props : Props) (st : State) (trace : list Event) : State :=
  foldl (step props) st trace.

(** The first render and its effects, at instant 0: the mount effect
    (lines 163-167) calls [updatePreview] at once for a new override, the
    effect on [params] (line 179) calls [handleChange]; when the store
    already holds the shift, the effect on [shift] (lines 134-141) sets the
    three states, which renders again with new [params]. *)
Definition mount (props : Props) (shifts : gmap string Shift.t) : State :=
  let f0 := initialForm props in
  let p0 := params props f0 in
  let st0 :=
    {| form := f0;
       now := 0;
       debounce := debouncedCallback debounceWindow p0 0 emptyDebouncer;
       net := if decide (shiftId props = "new"%string)
              then updatePreview p0 0 emptyNetwork
              else emptyNetwork |} in
  match shifts !! shiftId props with
  | Some shift => rerender props (hydrate props shift f0) st0
  | None => st0
  end.

Definition reachable (props : Props) (shifts : gmap string Shift.t) (st : State) : Prop :=
  ∃ trace, st = run props (mount props shifts) trace.

(** Events from the group list engine. *)
Definition isEngine (e : Event) : bool :=
  match e with
  | UserAdd _ | DeleteUser _ | SortEnd _ _ => true
  | _ => false
  end.

(** Events that change the parameter snapshot in state [st]: those that
    set one of the states [params] depends on. A handler of [UserGroups]
    counts when it calls [onChange]. *)
Definition changesParams (st : State) (e : Event) : bool :=
  match e with
  | UserAdd pk => bool_decide (is_Some (handleUserAdd (userGroups (form st)) pk))
  | DeleteUser index => bool_decide (is_Some (handleDeleteUser (userGroups (form st)) index))
  | SortEnd _ _ | SetShiftStart _ | SetShiftEnd _ | ShiftLoaded _ => true
  | Tick _ | Resolve _ | Reject _ => false
  end.

(** Snapshot changes at given instants: the clock reaches the instant,
    then the change happens. *)
Definition timed (changes : list (nat * Event)) : list Event :=
  flat_map (λ c, [Tick c.1; c.2]) changes.

(** Every event of [changes] changes the snapshot when its turn comes. *)
Fixpoint changesAll (props : Props) (st : State) (changes : list (nat * Event)) : Prop :=
  match changes with
  | [] => True
  | c :: rest =>
      changesParams (step props st (Tick c.1)) c.2 = true
      ∧ changesAll props (step props (step props st (Tick c.1)) c.2) rest
  end.

(** Consecutive instants are related by [P]. *)
Fixpoint spaced (P : nat → nat → Prop) (instants : list nat) : Prop :=
  match instants with
  | [] => True
  | t :: rest =>
      match rest with
      | [] => True
      | t' :: _ => P t t'
      end ∧ spaced P rest
  end.

Definition withinWindow (t t' : nat) : Prop := t ≤ t' ∧ t' < t + debounceWindow.
Definition beyondWindow (t t' : nat) : Prop := t + debounceWindow ≤ t'.

(** *** Invariants of the reachable states *)

(** No pending timeout, or exactly the one whose handle is stored. *)
Definition timerInv (d : Debouncer) : Prop :=
  timers d = [] ∨ ∃ tm, timers d = [tm] ∧ timeoutRef d = Some (timerId tm).

(** The only pending timeout was started at instant [t] for the current
    snapshot. *)
Definition armed (props : Props) (st : State) (t : nat) : Prop :=
  now st = t
  ∧ ∃ id, timers (debounce st)
          = [{| timerId := id; deadline := t + debounceWindow;
                callbackParams := params props (form st) |}]
          ∧ timeoutRef (debounce st) = Some id.

(** Unsettled requests have distinct identifiers, all already handed out. *)
Definition requestInv (n : Network) : Prop :=
  NoDup (requestId <$> inflight n)
  ∧ Forall (λ r, requestId r < nextRequestId n) (inflight n).

(** *** The error flag and the passive events *)

(** Line 211: [showError={!userGroups.some((group) => group.length)}]. *)
Definition showError (f : FormState) : bool :=
  negb (existsb (λ group, negb (length group =? 0)) (userGroups f)).


(** *** handleCreate *)

(** The call [handleCreate] (lines 151-161) makes on the schedule store. *)
Inductive StoreCall : Type :=
| CreateRotation (scheduleId : string) (isOverride : bool) (p : Params)
| UpdateRotation (shiftId : string) (p : Params).

Definition callParams (call : StoreCall) : Params :=
  match call with
  | CreateRotation _ _ p | UpdateRotation _ p => p
  end.

(** [scheduleId] is a prop; the callback is rebuilt whenever [params]
    changes, so it always holds the [params] of the current render. *)
Definition handleCreate (scheduleId : string) (props : Props) (f : FormState) : StoreCall :=
  if decide (shiftId props = "new"%string)
  then CreateRotation scheduleId true (params props f)
  else UpdateRotation (shiftId props) (params props f).

End form.

(** *** A concrete form

    For examples, dates are kept as the strings they are formatted to and
    the two conversions leave them as they are. *)
Definition stringOfDate (d : string) (timezone : string) : string := d.
Definition dateOfString (s : string) (timezone : string) : string := s.

(** A form opened for a new override. *)
Definition newOverride : @Props string :=
  {| shiftId := "new";
     currentTimezone := "UTC";
     shiftStart0 := "2022-06-02 00:00:00";
     shiftEnd0 := "2022-06-03 00:00:00" |}%string.

(** A form opened on a stored override, and that override. *)
Definition storedOverride : @Props string :=
  {| shiftId := "O7";
     currentTimezone := "UTC";
     shiftStart0 := "2022-06-02 00:00:00";
     shiftEnd0 := "2022-06-03 00:00:00" |}%string.

Definition storedShift : Shift.t :=
  {| Shift.shift_start := "2022-06-05 08:00:00";
     Shift.shift_end := "2022-06-05 20:00:00";
     Shift.rolling_users := [["u1"; "u2"]] |}%string.

End ScheduleOverrideForm.

(** * Facts about the array primitives *)

Section js_array_facts.
Context {A : Type}.

Lemma filterWithIndex_ne_below (j itemIndex : nat) (arr : list A) :
  j < itemIndex →
  filterWithIndex (λ _ n, negb (n =? j)) itemIndex arr = arr.
Proof.
  revert itemIndex. induction arr as [|x arr IH]; intros n Hn; simpl; [done|].
  destruct (Nat.eqb_spec n j); [lia|]. simpl. f_equal. apply IH. lia.
Qed.

Lemma filterWithIndex_ne_delete (j itemIndex : nat) (arr : list A) :
  filterWithIndex (λ _ n, negb (n =? itemIndex + j)) itemIndex arr = delete j arr.
Proof.
  revert j itemIndex. induction arr as [|x arr IH]; intros j n; simpl.
  - by destruct j.
  - destruct j as [|j]; simpl.
    + rewrite Nat.add_0_r, Nat.eqb_refl. simpl.
      apply filterWithIndex_ne_below. lia.
    + destruct (Nat.eqb_spec n (n + S j)); [lia|]. simpl. f_equal.
      replace (n + S j) with (S n + j) by lia. apply IH.
Qed.

Lemma delete_middle (l1 l2 : list A) (x : A) :
  delete (length l1) (l1 ++ x :: l2) = l1 ++ l2.
Proof. induction l1 as [|y l1 IH]; simpl; [done|]. by rewrite IH. Qed.

Lemma insert_middle (l1 l2 : list A) (x y : A) :
  <[length l1 := y]> (l1 ++ x :: l2) = l1 ++ y :: l2.
Proof. induction l1 as [|z l1 IH]; simpl; [done|]. by rewrite IH. Qed.

Lemma lookup_middle' (l1 l2 : list A) (x : A) :
  (l1 ++ x :: l2) !! length l1 = Some x.
Proof. induction l1 as [|z l1 IH]; simpl; done. Qed.


End js_array_facts.

(** * The group list engine *)

Module UserGroupsFacts.
Import UserGroups.

Lemma flatLength_app (pre post : list (list UserPk)) :
  flatLength (pre ++ post) = flatLength pre + flatLength post.
Proof.
  unfold flatLength. induction pre as [|g pre IH]; simpl; [done|].
  rewrite IH. lia.
Qed.

Lemma flatLength_cons (users : list UserPk) (rest : list (list UserPk)) :
  flatLength (users :: rest) = S (length users) + flatLength rest.
Proof. reflexivity. Qed.

(** The inner loop finds nothing when [index] is not one of the values
    [k] takes. *)
Lemma scanUsers_miss (users : list UserPk) (j : nat) (k index : Z) :
  (index ≤ k ∨ k + Z.of_nat (length users) < index)%Z →
  scanUsers users j k index = inr (k + Z.of_nat (length users))%Z.
Proof.
  revert j k. induction users as [|u users IH]; intros j k Hidx; simpl.
  - f_equal. lia.
  - destruct (Z.eqb_spec (k + 1) index) as [Heq|Hne].
    + simpl in Hidx. lia.
    + rewrite IH by (simpl in Hidx; lia). f_equal. lia.
Qed.

Lemma scanUsers_hit (us1 us2 : list UserPk) (u : UserPk) (j : nat) (k : Z) :
  scanUsers (us1 ++ u :: us2) j k (k + 1 + Z.of_nat (length us1)) = inl (j + length us1).
Proof.
  revert j k. induction us1 as [|v us1 IH]; intros j k; simpl.
  - rewrite Z.add_0_r, Z.eqb_refl. f_equal. lia.
  - replace (k + 1 + Z.of_nat (S (length us1)))%Z
      with ((k + 1) + 1 + Z.of_nat (length us1))%Z by lia.
    destruct (Z.eqb_spec (k + 1) (k + 1 + 1 + Z.of_nat (length us1))); [lia|].
    rewrite IH. f_equal. lia.
Qed.

Lemma scanGroups_miss (value rest : list (list UserPk)) (i : nat) (k index : Z) :
  (index ≤ k ∨ k + Z.of_nat (flatLength rest) < index)%Z →
  scanGroups value rest i k index = None.
Proof.
  revert i k. induction rest as [|users rest IH]; intros i k Hidx; simpl; [done|].
  rewrite flatLength_cons in Hidx.
  rewrite scanUsers_miss by lia.
  apply IH. lia.
Qed.

Lemma scanGroups_hit (value pre post : list (list UserPk)) (us1 us2 : list UserPk)
    (u : UserPk) (i : nat) (k : Z) :
  value !! (i + length pre) = Some (us1 ++ u :: us2) →
  scanGroups value (pre ++ (us1 ++ u :: us2) :: post) i k
    (k + Z.of_nat (flatLength pre) + 2 + Z.of_nat (length us1))
  = Some (filter (λ group, length group ≠ 0)
            (<[i + length pre := us1 ++ us2]> value)).
Proof.
  revert i k. induction pre as [|g pre IH]; intros i k Hlook; simpl.
  - replace (k + Z.of_nat (flatLength []) + 2 + Z.of_nat (length us1))%Z
      with ((k + 1) + 1 + Z.of_nat (length us1))%Z by (unfold flatLength; simpl; lia).
    rewrite scanUsers_hit. simpl. rewrite Nat.add_0_r in *. rewrite Hlook. simpl.
    rewrite (filterWithIndex_ne_delete (length us1) 0), delete_middle. done.
  - rewrite flatLength_cons.
    rewrite scanUsers_miss by lia.
    assert (Hi : i + length (g :: pre) = S i + length pre) by (simpl; lia).
    rewrite Hi in Hlook.
    replace (i + S (length pre)) with (S i + length pre) by lia.
    rewrite <- (IH (S i) (k + 1 + Z.of_nat (length g))%Z Hlook). f_equal. lia.
Qed.

Lemma handleDeleteUser_hit (pre post : list (list UserPk)) (us1 us2 : list UserPk) (u : UserPk) :
  handleDeleteUser (pre ++ (us1 ++ u :: us2) :: post)
    (Z.of_nat (flatLength pre + 1 + length us1))
  = Some (filter (λ group, length group ≠ 0) (pre ++ (us1 ++ us2) :: post)).
Proof.
  unfold handleDeleteUser.
  replace (Z.of_nat (flatLength pre + 1 + length us1))
    with (-1 + Z.of_nat (flatLength pre) + 2 + Z.of_nat (length us1))%Z by lia.
  rewrite scanGroups_hit by apply lookup_middle'.
  simpl. by rewrite insert_middle.
Qed.

(** Whatever [handleDeleteUser] passes to [onChange] went through the
    final [filter]. *)
Lemma scanGroups_filtered (value rest : list (list UserPk)) (i : nat) (k index : Z)
    (result : list (list UserPk)) :
  scanGroups value rest i k index = Some result →
  ∃ groups, result = filter (λ group, length group ≠ 0) groups.
Proof.
  revert i k. induction rest as [|users rest IH]; intros i k; simpl; [done|].
  destruct (scanUsers users 0 (k + 1) index) as [j|k'].
  - intros [= <-]. eauto.
  - apply IH.
Qed.

Lemma handleUserAdd_snoc (init : list (list UserPk)) (lastGroup : list UserPk) (pk : UserPk) :
  pk ≠ EmptyString →
  handleUserAdd (init ++ [lastGroup]) (Some pk) = Some (init ++ [lastGroup ++ [pk]]).
Proof.
  intros Hpk. unfold handleUserAdd. destruct (decide _); [done|].
  rewrite last_snoc, length_app. simpl.
  replace (length init + 1 - 1) with (length init) by lia.
  by rewrite insert_middle.
Qed.

(** ** handleUserAdd on array objects *)

Lemma read_insert_fresh (h : gmap nat (list UserPk)) (value : list nat) (r : nat)
    (group : list UserPk) :
  r ∉ value → UserGroupsRefs.read (<[r := group]> h) value = UserGroupsRefs.read h value.
Proof.
  intros Hnotin. unfold UserGroupsRefs.read. apply list_fmap_ext.
  intros i r' Hlook. rewrite lookup_insert_ne; [done|].
  intros ->. apply Hnotin. by eapply list_elem_of_lookup_2.
Qed.

(** X9. Provided the groups of [value] are distinct arrays, what
    [onChange] receives, read in the store after the call, is what the
    value-level [handleUserAdd] computes from the group list read before
    the call: the key appended to the last group, a first group being
    created when there is none, and no call for a missing or empty key. *)
Lemma handleUserAdd_refs (h : gmap nat (list UserPk)) (value : list nat) (pk : option UserPk) :
  NoDup value →
  let (result, h') := UserGroupsRefs.handleUserAdd h value pk in
  UserGroupsRefs.read h' <$> result = handleUserAdd (UserGroupsRefs.read h value) pk.
Proof.
  intros Hnodup. unfold UserGroupsRefs.handleUserAdd.
  destruct pk as [pk|]; [|done].
  destruct (decide (pk = EmptyString)) as [->|Hpk]; [done|].
  destruct value as [|lastGroup init _] using rev_ind.
  - simpl. unfold handleUserAdd. destruct (decide _); [done|]. simpl.
    unfold UserGroupsRefs.read. simpl. by rewrite lookup_insert_eq.
  - rewrite last_snoc.
    apply NoDup_app in Hnodup as (_ & Hdisj & _).
    assert (Hnotin : lastGroup ∉ init).
    { intros Hin. apply (Hdisj _ Hin). by apply list_elem_of_singleton. }
    assert (Hread : ∀ h0, UserGroupsRefs.read h0 (init ++ [lastGroup])
                          = UserGroupsRefs.read h0 init ++ [default [] (h0 !! lastGroup)]).
    { intros h0. unfold UserGroupsRefs.read. by rewrite fmap_app. }
    rewrite (Hread h), handleUserAdd_snoc by done.
    cbn [fmap option_fmap option_map]. rewrite Hread, lookup_insert_eq.
    by rewrite read_insert_fresh.
Qed.

(** The push is visible through the old [value] too: after a call that
    found a last group, the old and the new outer array read the same. *)
Lemma handleUserAdd_refs_alias (h : gmap nat (list UserPk)) (init : list nat)
    (lastGroup : nat) (pk : UserPk) :
  pk ≠ EmptyString →
  UserGroupsRefs.handleUserAdd h (init ++ [lastGroup]) (Some pk)
  = (Some (init ++ [lastGroup]),
     <[lastGroup := default [] (h !! lastGroup) ++ [pk]]> h).
Proof.
  intros Hpk. unfold UserGroupsRefs.handleUserAdd.
  destruct (decide _); [done|]. by rewrite last_snoc.
Qed.

(** ** The flattened model *)

Lemma toPlainArrayFrom_app (i : nat) (pre post : list (list UserPk)) :
  toPlainArrayFrom i (pre ++ post)
  = toPlainArrayFrom i pre ++ toPlainArrayFrom (i + length pre) post.
Proof.
  revert i. induction pre as [|g pre IH]; intros i; simpl.
  - by rewrite Nat.add_0_r.
  - rewrite IH, <- app_assoc.
    replace (S i + length pre) with (i + S (length pre)) by lia. done.
Qed.

(** The flattening has exactly the slots [handleDeleteUser] counts. *)
Lemma toPlainArrayFrom_length (i : nat) (groups : list (list UserPk)) :
  length (toPlainArrayFrom i groups) = flatLength groups.
Proof.
  revert i. induction groups as [|g groups IH]; intros i; simpl; [done|].
  rewrite flatLength_cons, length_app, length_map, IH. done.
Qed.

Lemma toPlainArray_length (groups : list (list UserPk)) :
  length (toPlainArray groups) = flatLength groups.
Proof. apply toPlainArrayFrom_length. Qed.

(** The flattening around one member. *)
Lemma toPlainArray_split (pre post : list (list UserPk)) (us1 us2 : list UserPk) (u : UserPk) :
  ∃ l1 l2,
    toPlainArray (pre ++ (us1 ++ u :: us2) :: post) = l1 ++ ItemMember u (length pre) :: l2
    ∧ toPlainArray (pre ++ (us1 ++ us2) :: post) = l1 ++ l2
    ∧ length l1 = flatLength pre + 1 + length us1.
Proof.
  exists (toPlainArrayFrom 0 pre ++ ItemSeparator (length pre)
            :: map (λ memberId, ItemMember memberId (length pre)) us1),
         (map (λ memberId, ItemMember memberId (length pre)) us2
            ++ toPlainArrayFrom (S (length pre)) post).
  unfold toPlainArray. rewrite !toPlainArrayFrom_app. simpl.
  rewrite !map_app. simpl. rewrite <- !app_assoc. simpl.
  repeat split.
  rewrite length_app. simpl. rewrite length_map, toPlainArrayFrom_length. lia.
Qed.

(** The flat index at which [handleDeleteUser] removes is the position of
    that member in the flattening. *)
Lemma toPlainArray_lookup_member (pre post : list (list UserPk)) (us1 us2 : list UserPk) (u : UserPk) :
  toPlainArray (pre ++ (us1 ++ u :: us2) :: post) !! (flatLength pre + 1 + length us1)
  = Some (ItemMember u (length pre)).
Proof.
  destruct (toPlainArray_split pre post us1 us2 u) as (l1 & l2 & -> & _ & <-).
  apply lookup_middle'.
Qed.



Lemma unflattenItem_member_snoc (multiGroupMode : bool) (len currentIndex gi : nat)
    (memo : list (list UserPk)) (l : list UserPk) (u : UserPk) :
  (multiGroupMode && (currentIndex =? len - 1)) = false →
  unflattenItem multiGroupMode len (memo ++ [l]) currentIndex (ItemMember u gi)
  = memo ++ [l ++ [u]].
Proof.
  intros Hflag. unfold unflattenItem. rewrite last_snoc, Hflag.
  rewrite length_app. simpl.
  replace (length memo + 1 - 1) with (length memo) by lia.
  apply insert_middle.
Qed.

Lemma unflattenFrom_app (multiGroupMode : bool) (len : nat) (xs ys : list Item)
    (currentIndex : nat) (memo : list (list UserPk)) :
  unflattenFrom multiGroupMode len (xs ++ ys) currentIndex memo
  = unflattenFrom multiGroupMode len ys (currentIndex + length xs)
      (unflattenFrom multiGroupMode len xs currentIndex memo).
Proof.
  revert currentIndex memo. induction xs as [|x xs IH]; intros c memo; simpl.
  - by rewrite Nat.add_0_r.
  - rewrite IH. f_equal. lia.
Qed.

(** Away from the final position the pass does not look at its flag. *)
Lemma unflattenFrom_not_last (multiGroupMode : bool) (len : nat) (items : list Item)
    (currentIndex : nat) (memo : list (list UserPk)) :
  currentIndex + length items < len →
  unflattenFrom multiGroupMode len items currentIndex memo
  = unflattenFrom false len items currentIndex memo.
Proof.
  revert currentIndex memo. induction items as [|x items IH]; intros c memo Hlen; simpl; [done|].
  simpl in Hlen. rewrite IH by lia. f_equal.
  destruct x as [u gi|gi]; simpl; [|done].
  destruct (Nat.eqb_spec c (len - 1)); [lia|]. by rewrite andb_false_r.
Qed.

(** Members that follow an open group join it. *)
Lemma unflattenFrom_members (len currentIndex gi : nat) (us l : list UserPk)
    (memo : list (list UserPk)) :
  unflattenFrom false len (map (λ memberId, ItemMember memberId gi) us) currentIndex (memo ++ [l])
  = memo ++ [l ++ us].
Proof.
  revert currentIndex l. induction us as [|u us IH]; intros c l; cbn [map unflattenFrom].
  - by rewrite app_nil_r.
  - rewrite unflattenItem_member_snoc by done. rewrite IH, <- app_assoc. done.
Qed.

(** Without the trailing-group flag, unflattening a flattening appends the
    groups to what was read before. *)
Lemma unflattenFrom_groups (len currentIndex i : nat) (groups memo : list (list UserPk)) :
  unflattenFrom false len (toPlainArrayFrom i groups) currentIndex memo = memo ++ groups.
Proof.
  revert currentIndex i memo. induction groups as [|g groups IH]; intros c i memo; simpl.
  - by rewrite app_nil_r.
  - rewrite unflattenFrom_app, unflattenFrom_members, IH, <- app_assoc. done.
Qed.

Lemma fromPlainArray_toPlainArray_false (groups : list (list UserPk)) :
  fromPlainArray (toPlainArray groups) false = groups.
Proof. unfold fromPlainArray, toPlainArray. apply unflattenFrom_groups. Qed.

Lemma unflattenFrom_false_len (len len' : nat) (items : list Item) (currentIndex : nat)
    (memo : list (list UserPk)) :
  unflattenFrom false len items currentIndex memo
  = unflattenFrom false len' items currentIndex memo.
Proof.
  revert currentIndex memo. induction items as [|x items IH]; intros c memo; simpl; [done|].
  apply IH.
Qed.

(** A sequence that ends in a member, read with the flag: the member
    forms a trailing group of its own. *)
Lemma fromPlainArray_true_snoc_member (items : list Item) (u : UserPk) (gi : nat) :
  fromPlainArray (items ++ [ItemMember u gi]) true
  = fromPlainArray items false ++ [[u]].
Proof.
  unfold fromPlainArray. rewrite unflattenFrom_app. cbn [unflattenFrom].
  rewrite unflattenFrom_not_last by (rewrite length_app; simpl; lia).
  rewrite (unflattenFrom_false_len _ (length items)).
  unfold unflattenItem. rewrite length_app. simpl length.
  replace (length items + 1 - 1) with (0 + length items) by lia.
  rewrite Nat.eqb_refl. simpl.
  by destruct (last _).
Qed.


Lemma fromPlainArray_snoc_separator (items : list Item) (gi : nat) (multiGroupMode : bool) :
  fromPlainArray (items ++ [ItemSeparator gi]) multiGroupMode
  = fromPlainArray items false ++ [[]].
Proof.
  unfold fromPlainArray. rewrite unflattenFrom_app. cbn [unflattenFrom].
  rewrite unflattenFrom_not_last by (rewrite length_app; simpl; lia).
  by rewrite (unflattenFrom_false_len _ (length items)).
Qed.

Lemma toPlainArray_snoc_empty (groups : list (list UserPk)) :
  toPlainArray (groups ++ [[]]) = toPlainArray groups ++ [ItemSeparator (length groups)].
Proof. unfold toPlainArray. by rewrite toPlainArrayFrom_app. Qed.

Lemma toPlainArray_snoc_member (groups : list (list UserPk)) (l : list UserPk) (u : UserPk) :
  toPlainArray (groups ++ [l ++ [u]])
  = toPlainArray (groups ++ [l]) ++ [ItemMember u (length groups)].
Proof.
  unfold toPlainArray. rewrite !toPlainArrayFrom_app. cbn [toPlainArrayFrom].
  rewrite !app_nil_r, map_app. simpl. by rewrite <- !app_assoc.
Qed.

(** ** The claims about the engine *)

(** In the model of the two helpers: the round trip with the second
    argument [false] holds for every group list; with [true] it holds
    exactly for the group lists whose flattening does not end in a member,
    the final member being otherwise split off into a trailing group. *)
Theorem fromPlainArray_toPlainArray (groups : list (list UserPk)) :
  fromPlainArray (toPlainArray groups) false = groups
  ∧ (fromPlainArray (toPlainArray groups) true = groups
     ↔ groups = [] ∨ last groups = Some []).
Proof.
  split; [apply fromPlainArray_toPlainArray_false|].
  destruct groups as [|g0 groups0 _] using rev_ind; [by split; [left|]|].
  rewrite last_snoc.
  destruct g0 as [|u l _] using rev_ind.
  - rewrite toPlainArray_snoc_empty, fromPlainArray_snoc_separator.
    rewrite fromPlainArray_toPlainArray_false. by split; [right|].
  - rewrite toPlainArray_snoc_member.
    rewrite fromPlainArray_true_snoc_member, fromPlainArray_toPlainArray_false.
    split.
    + intros Heq. apply (f_equal length) in Heq. rewrite !length_app in Heq.
      simpl in Heq. lia.
    + intros [Hnil|[= Hl]].
      * by destruct groups0.
      * by destruct l.
Qed.



(** C3. An index outside the flat range (negative, or not below the
    number of flat slots) makes [handleDeleteUser] return without a call
    of [onChange]; the model is a total function, nothing can throw. *)
Theorem handleDeleteUser_out_of_range (value : list (list UserPk)) (index : Z)
    (Hrange : (index < 0 ∨ Z.of_nat (flatLength value) ≤ index)%Z) :
  handleDeleteUser value index = None.
Proof. unfold handleDeleteUser. apply scanGroups_miss. lia. Qed.

Lemma handleDeleteUser_out_of_range_witness :
  (5 < 0 ∨ Z.of_nat (flatLength [["u1"; "u2"]; ["u3"]]%string) ≤ 5)%Z
  ∧ handleDeleteUser [["u1"; "u2"]; ["u3"]]%string 5 = None.
Proof.
  assert (H : (5 < 0 ∨ Z.of_nat (flatLength [["u1"; "u2"]; ["u3"]]%string) ≤ 5)%Z).
  { right. vm_compute. discriminate. }
  split; [exact H|]. exact (handleDeleteUser_out_of_range _ _ H).
Defined.

(** C5. [handleUserAdd] with a missing or empty key returns without a
    call of [onChange]; with any other key it calls [onChange] with the
    key appended to the last group, a first group being created when there
    is none. On the empty group list, adding "u1" gives [["u1"]]. *)
Theorem handleUserAdd_spec (value : list (list UserPk)) (pk : UserPk)
    (Hpk : pk ≠ EmptyString) :
  handleUserAdd value None = None
  ∧ handleUserAdd value (Some EmptyString) = None
  ∧ (value = [] → handleUserAdd value (Some pk) = Some [[pk]])
  ∧ (∀ init lastGroup, value = init ++ [lastGroup] →
       handleUserAdd value (Some pk) = Some (init ++ [lastGroup ++ [pk]]))
  ∧ handleUserAdd [] (Some "u1"%string) = Some [["u1"%string]].
Proof.
  repeat split.
  - intros ->. unfold handleUserAdd. by destruct (decide _).
  - intros init lastGroup ->. by apply handleUserAdd_snoc.
Qed.

Lemma handleUserAdd_spec_witness :
  "u2"%string ≠ EmptyString
  ∧ handleUserAdd [["u1"%string]] (Some "u2"%string) = Some [["u1"; "u2"]%string].
Proof.
  assert (H : "u2"%string ≠ EmptyString) by discriminate.
  split; [exact H|].
  exact (proj1 (proj2 (proj2 (proj2 (handleUserAdd_spec [["u1"%string]] "u2" H))))
           [] ["u1"%string] eq_refl).
Defined.

(** C6. At the flat index of a member ([u], after [us1] in the group that
    follows the groups [pre]), [handleDeleteUser] calls [onChange] with
    that member taken out of its group and the groups of length zero
    filtered out. From [[u1, u2], [u3]], removing at the index of u1
    gives [[u2], [u3]]. *)
Theorem handleDeleteUser_removes_member (pre post : list (list UserPk))
    (us1 us2 : list UserPk) (u : UserPk) :
  handleDeleteUser (pre ++ (us1 ++ u :: us2) :: post)
    (Z.of_nat (flatLength pre + 1 + length us1))
  = Some (filter (λ group, length group ≠ 0) (pre ++ (us1 ++ us2) :: post))
  ∧ handleDeleteUser [["u1"; "u2"]; ["u3"]]%string 1 = Some [["u2"]; ["u3"]]%string.
Proof.
  split; [apply handleDeleteUser_hit|reflexivity].
Qed.

(** C10. Whenever [handleDeleteUser] calls [onChange], the group list it
    passes has no empty group, wherever the empty groups were before. *)
Theorem handleDeleteUser_no_empty_group (value : list (list UserPk)) (index : Z)
    (result : list (list UserPk))
    (Hcall : handleDeleteUser value index = Some result) :
  Forall (λ group, group ≠ []) result.
Proof.
  apply scanGroups_filtered in Hcall as [groups ->].
  apply Forall_forall. intros group Hin.
  apply list_elem_of_filter in Hin as [Hlen _].
  by destruct group.
Qed.

Lemma handleDeleteUser_no_empty_group_witness :
  handleDeleteUser [[]; ["u1"; "u2"]; []]%string 2 = Some [["u2"%string]]
  ∧ Forall (λ group, group ≠ []) [["u2"%string]].
Proof.
  assert (H : handleDeleteUser [[]; ["u1"; "u2"]; []]%string 2 = Some [["u2"%string]])
    by reflexivity.
  split; [exact H|]. exact (handleDeleteUser_no_empty_group _ _ _ H).
Defined.


(** ** More about the handlers *)

Lemma scanUsers_inr (users : list UserPk) (j : nat) (k index k' : Z) :
  scanUsers users j k index = inr k' → k' = (k + Z.of_nat (length users))%Z.
Proof.
  revert j k. induction users as [|u users IH]; intros j k; cbn [scanUsers].
  - intros [= <-]. simpl. lia.
  - destruct (k + 1 =? index)%Z; [done|].
    intros Hscan. apply IH in Hscan. simpl. lia.
Qed.

Lemma scanUsers_inl (users : list UserPk) (j j' : nat) (k index : Z) :
  scanUsers users j k index = inl j' →
  ∃ us1 u us2,
    users = us1 ++ u :: us2
    ∧ index = (k + 1 + Z.of_nat (length us1))%Z
    ∧ j' = j + length us1.
Proof.
  revert j k. induction users as [|u users IH]; intros j k; cbn [scanUsers]; [done|].
  destruct (Z.eqb_spec (k + 1) index) as [Heq|Hne].
  - intros [= <-]. exists [], u, users. simpl. repeat split; lia.
  - intros Hscan. apply IH in Hscan as (us1 & u' & us2 & -> & -> & ->).
    exists (u :: us1), u', us2. simpl. repeat split; lia.
Qed.

(** The loops reach [onChange] only at the slot of a user. *)
Lemma scanGroups_inv (value rest : list (list UserPk)) (i : nat) (k index : Z)
    (result : list (list UserPk)) :
  scanGroups value rest i k index = Some result →
  ∃ pre us1 u us2 post,
    rest = pre ++ (us1 ++ u :: us2) :: post
    ∧ index = (k + Z.of_nat (flatLength pre) + 2 + Z.of_nat (length us1))%Z.
Proof.
  revert i k. induction rest as [|users rest IH]; intros i k; cbn [scanGroups]; [done|].
  destruct (scanUsers users 0 (k + 1) index) as [j|k'] eqn:Hscan.
  - intros _. apply scanUsers_inl in Hscan as (us1 & u & us2 & -> & -> & _).
    exists [], us1, u, us2, rest. split; [done|]. unfold flatLength. simpl. lia.
  - intros Hrest. apply scanUsers_inr in Hscan as ->.
    apply IH in Hrest as (pre & us1 & u & us2 & post & -> & ->).
    exists (users :: pre), us1, u, us2, post. split; [done|].
    rewrite flatLength_cons. lia.
Qed.

Lemma handleDeleteUser_inv (value : list (list UserPk)) (index : Z)
    (result : list (list UserPk)) :
  handleDeleteUser value index = Some result →
  ∃ pre us1 u us2 post,
    value = pre ++ (us1 ++ u :: us2) :: post
    ∧ index = Z.of_nat (flatLength pre + 1 + length us1)
    ∧ result = filter (λ group, length group ≠ 0) (pre ++ (us1 ++ us2) :: post).
Proof.
  intros Hcall. pose proof Hcall as Hinv. unfold handleDeleteUser in Hinv.
  apply scanGroups_inv in Hinv as (pre & us1 & u & us2 & post & -> & ->).
  exists pre, us1, u, us2, post. split; [done|].
  assert (Hidx : (-1 + Z.of_nat (flatLength pre) + 2 + Z.of_nat (length us1))%Z
                 = Z.of_nat (flatLength pre + 1 + length us1)) by lia.
  rewrite Hidx in Hcall |- *. split; [done|].
  rewrite handleDeleteUser_hit in Hcall. by injection Hcall as <-.
Qed.

Lemma scanGroups_separator (value pre post : list (list UserPk)) (group : list UserPk)
    (i : nat) (k : Z) :
  scanGroups value (pre ++ group :: post) i k (k + Z.of_nat (flatLength pre) + 1) = None.
Proof.
  revert i k. induction pre as [|g pre IH]; intros i k; cbn [app scanGroups].
  - rewrite scanUsers_miss by (unfold flatLength; simpl; lia).
    apply scanGroups_miss. unfold flatLength. simpl. lia.
  - rewrite flatLength_cons. rewrite scanUsers_miss by lia.
    replace (k + Z.of_nat (S (length g) + flatLength pre) + 1)%Z
      with ((k + 1 + Z.of_nat (length g)) + Z.of_nat (flatLength pre) + 1)%Z by lia.
    apply IH.
Qed.

Lemma concat_filter_nonempty (groups : list (list UserPk)) :
  concat (filter (λ group, length group ≠ 0) groups) = concat groups.
Proof.
  induction groups as [|g groups IH]; [done|].
  destruct g as [|u g].
  - rewrite filter_cons_False by (simpl; lia). done.
  - rewrite filter_cons_True by done. simpl. by rewrite IH.
Qed.

(** X1. [handleDeleteUser] calls [onChange] exactly when [index] is the
    slot of a user: one past the slots of the groups before it, its own
    group header and the users before it in its group. *)
Theorem handleDeleteUser_calls_onChange_iff (value : list (list UserPk)) (index : Z) :
  is_Some (handleDeleteUser value index)
  ↔ ∃ pre us1 u us2 post,
      value = pre ++ (us1 ++ u :: us2) :: post
      ∧ index = Z.of_nat (flatLength pre + 1 + length us1).
Proof.
  split.
  - intros [result Hcall].
    apply handleDeleteUser_inv in Hcall as (pre & us1 & u & us2 & post & ? & ? & _).
    by exists pre, us1, u, us2, post.
  - intros (pre & us1 & u & us2 & post & -> & ->). rewrite handleDeleteUser_hit. eauto.
Qed.

(** X2. At the slot of a group header, an index that is in range,
    [handleDeleteUser] returns without a call of [onChange]. *)
Theorem handleDeleteUser_at_separator (pre post : list (list UserPk)) (group : list UserPk) :
  handleDeleteUser (pre ++ group :: post) (Z.of_nat (flatLength pre)) = None.
Proof.
  unfold handleDeleteUser.
  replace (Z.of_nat (flatLength pre)) with (-1 + Z.of_nat (flatLength pre) + 1)%Z by lia.
  apply scanGroups_separator.
Qed.

(** X3. A deletion takes exactly one user out of the sequence of all
    users and keeps the others in their order. *)
Theorem handleDeleteUser_concat (value : list (list UserPk)) (index : Z)
    (result : list (list UserPk))
    (Hcall : handleDeleteUser value index = Some result) :
  ∃ n u, concat value !! n = Some u ∧ concat result = delete n (concat value).
Proof.
  apply handleDeleteUser_inv in Hcall as (pre & us1 & u & us2 & post & -> & _ & ->).
  exists (length (concat pre ++ us1)), u.
  assert (Hbefore : concat (pre ++ (us1 ++ u :: us2) :: post)
                    = (concat pre ++ us1) ++ u :: (us2 ++ concat post)).
  { rewrite concat_app. simpl. by rewrite <- !app_assoc. }
  assert (Hafter : concat (pre ++ (us1 ++ us2) :: post)
                   = (concat pre ++ us1) ++ (us2 ++ concat post)).
  { rewrite concat_app. simpl. by rewrite <- !app_assoc. }
  rewrite concat_filter_nonempty, Hbefore, Hafter.
  by rewrite lookup_middle', delete_middle.
Qed.

Lemma handleDeleteUser_concat_witness :
  handleDeleteUser [["u1"; "u2"]; ["u3"]]%string 2 = Some [["u1"]; ["u3"]]%string
  ∧ ∃ n u, concat [["u1"; "u2"]; ["u3"]]%string !! n = Some u
           ∧ concat [["u1"]; ["u3"]]%string = delete n (concat [["u1"; "u2"]; ["u3"]]%string).
Proof.
  assert (H : handleDeleteUser [["u1"; "u2"]; ["u3"]]%string 2
              = Some [["u1"]; ["u3"]]%string) by reflexivity.
  split; [exact H|]. exact (handleDeleteUser_concat _ _ _ H).
Defined.

(** X4. Adding a non-empty key appends it to the sequence of all users
    (nothing is deduplicated or reordered) and leaves the number of groups
    as it was, at least one. *)
Theorem handleUserAdd_concat (value : list (list UserPk)) (pk : UserPk)
    (Hpk : pk ≠ EmptyString) :
  ∃ result,
    handleUserAdd value (Some pk) = Some result
    ∧ concat result = concat value ++ [pk]
    ∧ length result = Nat.max 1 (length value).
Proof.
  destruct value as [|lastGroup init _] using rev_ind.
  - exists [[pk]]. unfold handleUserAdd. by destruct (decide _).
  - exists (init ++ [lastGroup ++ [pk]]). rewrite handleUserAdd_snoc by done.
    split; [done|]. rewrite !concat_app, !length_app. simpl.
    rewrite !app_nil_r, <- app_assoc. split; [done|lia].
Qed.

Lemma handleUserAdd_concat_witness :
  "u1"%string ≠ EmptyString
  ∧ ∃ result,
      handleUserAdd [["u1"]; []]%string (Some "u1"%string) = Some result
      ∧ concat result = concat [["u1"]; []]%string ++ ["u1"%string]
      ∧ length result = Nat.max 1 (length [["u1"]; []]%string).
Proof.
  assert (H : "u1"%string ≠ EmptyString) by discriminate.
  split; [exact H|]. exact (handleUserAdd_concat _ _ H).
Defined.

(** X5. Adding a user and then deleting at the last flat slot gives the
    group list back, up to the pruning of its empty groups. *)
Theorem handleUserAdd_then_delete (value : list (list UserPk)) (pk : UserPk)
    (Hpk : pk ≠ EmptyString) :
  ∃ added,
    handleUserAdd value (Some pk) = Some added
    ∧ handleDeleteUser added (Z.of_nat (flatLength added - 1))
      = Some (filter (λ group, length group ≠ 0) value).
Proof.
  destruct value as [|lastGroup init _] using rev_ind.
  - exists [[pk]]. split; [|reflexivity].
    unfold handleUserAdd. by destruct (decide _).
  - exists (init ++ [lastGroup ++ [pk]]). rewrite handleUserAdd_snoc by done.
    split; [done|].
    replace (flatLength (init ++ [lastGroup ++ [pk]]) - 1)
      with (flatLength init + 1 + length lastGroup).
    2:{ rewrite flatLength_app, flatLength_cons, length_app. unfold flatLength. simpl. lia. }
    rewrite handleDeleteUser_hit. by rewrite app_nil_r.
Qed.

Lemma handleUserAdd_then_delete_witness :
  "u3"%string ≠ EmptyString
  ∧ ∃ added,
      handleUserAdd [["u1"]; []; ["u2"]]%string (Some "u3"%string) = Some added
      ∧ handleDeleteUser added (Z.of_nat (flatLength added - 1))
        = Some (filter (λ group, length group ≠ 0) [["u1"]; []; ["u2"]]%string).
Proof.
  assert (H : "u3"%string ≠ EmptyString) by discriminate.
  split; [exact H|]. exact (handleUserAdd_then_delete _ _ H).
Defined.

(** X6. The empty group appended by [handleAddUserGroup] is invisible to
    deletion: [handleDeleteUser] does on the extended list exactly what it
    does on the list itself, so the new group is gone after any deletion. *)
Theorem handleDeleteUser_after_add_group (value : list (list UserPk)) (index : Z) :
  handleDeleteUser (handleAddUserGroup value) index = handleDeleteUser value index.
Proof.
  unfold handleAddUserGroup.
  destruct (handleDeleteUser value index) as [result|] eqn:Hcall.
  - apply handleDeleteUser_inv in Hcall as (pre & us1 & u & us2 & post & -> & -> & ->).
    rewrite <- app_assoc. simpl. rewrite handleDeleteUser_hit.
    f_equal. rewrite !filter_app, !filter_cons, filter_app. simpl.
    rewrite filter_cons_False by (simpl; lia). by rewrite filter_nil, app_nil_r.
  - destruct (handleDeleteUser (value ++ [[]]) index) as [result|] eqn:Hcall'; [|done].
    apply handleDeleteUser_inv in Hcall' as (pre & us1 & u & us2 & post & Hsplit & -> & _).
    destruct post as [|lastGroup post _] using rev_ind.
    + apply app_inj_tail in Hsplit as [_ Hnil]. by destruct us1.
    + replace (pre ++ (us1 ++ u :: us2) :: post ++ [lastGroup])
        with ((pre ++ (us1 ++ u :: us2) :: post) ++ [lastGroup]) in Hsplit
        by (by rewrite <- app_assoc).
      apply app_inj_tail in Hsplit as [-> _].
      by rewrite handleDeleteUser_hit in Hcall.
Qed.

(** X7. After [handleAddUserGroup], [handleUserAdd] puts the user in the
    new group: an empty array is truthy, so no further group is created. *)
Theorem handleUserAdd_after_add_group (value : list (list UserPk)) (pk : UserPk)
    (Hpk : pk ≠ EmptyString) :
  handleUserAdd (handleAddUserGroup value) (Some pk) = Some (value ++ [[pk]]).
Proof. unfold handleAddUserGroup. by rewrite handleUserAdd_snoc. Qed.

Lemma handleUserAdd_after_add_group_witness :
  "u2"%string ≠ EmptyString
  ∧ handleUserAdd (handleAddUserGroup [["u1"%string]]) (Some "u2"%string)
    = Some [["u1"]; ["u2"]]%string.
Proof.
  assert (H : "u2"%string ≠ EmptyString) by discriminate.
  split; [exact H|]. exact (handleUserAdd_after_add_group _ _ H).
Defined.

(** ** handleUserAdd and the previous value *)

(** X8. When [handleUserAdd] finds a last group, the array it passes to
    [onChange] holds the very references of [value], and the push has
    changed what [value] itself reads: the previous group list is mutated
    in place. *)
Theorem handleUserAdd_refs_mutates_value (h : gmap nat (list UserPk)) (value : list nat)
    (pk : UserPk) (Hpk : pk ≠ EmptyString) (Hgroups : value ≠ []) :
  let (result, h') := UserGroupsRefs.handleUserAdd h value (Some pk) in
  result = Some value
  ∧ UserGroupsRefs.read h' value ≠ UserGroupsRefs.read h value.
Proof.
  destruct value as [|lastGroup init _] using rev_ind; [done|].
  rewrite handleUserAdd_refs_alias by done. split; [done|].
  intros Heq. apply (f_equal last) in Heq.
  unfold UserGroupsRefs.read in Heq. rewrite !fmap_app in Heq.
  cbn [fmap list_fmap] in Heq. rewrite !last_snoc, lookup_insert_eq in Heq.
  simpl in Heq. injection Heq as Heq.
  apply (f_equal length) in Heq. rewrite length_app in Heq. simpl in Heq. lia.
Qed.

Lemma handleUserAdd_refs_mutates_value_witness :
  "u2"%string ≠ EmptyString
  ∧ [0] ≠ []
  ∧ UserGroupsRefs.read
      (UserGroupsRefs.handleUserAdd {[ 0 := ["u1"%string] ]} [0] (Some "u2"%string)).2 [0]
    ≠ UserGroupsRefs.read {[ 0 := ["u1"%string] ]} [0].
Proof.
  assert (Hpk : "u2"%string ≠ EmptyString) by discriminate.
  assert (Hgroups : [0] ≠ []) by discriminate.
  split; [exact Hpk|]. split; [exact Hgroups|].
  exact (proj2 (handleUserAdd_refs_mutates_value {[ 0 := ["u1"%string] ]} [0] "u2"
                  Hpk Hgroups)).
Defined.

Lemma handleUserAdd_refs_witness :
  NoDup [0; 1]
  ∧ UserGroupsRefs.read
      (UserGroupsRefs.handleUserAdd {[ 0 := ["u1"%string]; 1 := [] ]} [0; 1]
         (Some "u2"%string)).2
    <$> (UserGroupsRefs.handleUserAdd {[ 0 := ["u1"%string]; 1 := [] ]} [0; 1]
           (Some "u2"%string)).1
    = Some [["u1"]; ["u2"]]%string.
Proof.
  assert (H : NoDup [0; 1]) by (by apply (bool_decide_unpack _)).
  split; [exact H|].
  exact (handleUserAdd_refs {[ 0 := ["u1"%string]; 1 := [] ]} [0; 1]
           (Some "u2"%string) H).
Defined.

(** ** The rendered list *)

Import UserGroupsList.

Lemma renderItems_elem (isMultipleGroups : bool) (index : nat) (items : list Item)
    (el : Element) :
  el ∈ renderItems isMultipleGroups index items →
  ∃ n item,
    items !! n = Some item
    ∧ match item with
      | ItemMember data _ => el = UserElement (index + n) data
      | ItemSeparator groupIndex =>
          isMultipleGroups = true ∧ el = SeparatorElement (index + n) groupIndex
      end.
Proof.
  revert index. induction items as [|item items IH]; intros index Hin;
    [by apply elem_of_nil in Hin|].
  cbn [renderItems] in Hin. apply elem_of_app in Hin as [Hin|Hin].
  - exists 0, item. split; [done|]. rewrite Nat.add_0_r.
    destruct item as [data gi|gi].
    + by apply list_elem_of_singleton in Hin.
    + destruct isMultipleGroups; [|by apply elem_of_nil in Hin].
      by apply list_elem_of_singleton in Hin.
  - apply IH in Hin as (n & item' & Hlook & Hel).
    exists (S n), item'. split; [done|].
    by replace (index + S n) with (S index + n) by lia.
Qed.

(** X10. Every element of the rendered list but the "Add user group"
    element sits at a position of the flat array and shows the item there,
    in both modes; in single-group mode only users are rendered. An
    element has an index greater than the length of the flat array, the
    test [onSortEnd] makes on its target, exactly when it is the
    "Add user group" element, which needs multi-group mode and a flat
    array ending in a user. *)
Theorem SortableList_targets (items : list Item) (isMultipleGroups : bool) (el : Element)
    (Hin : el ∈ SortableList items isMultipleGroups) :
  match el with
  | UserElement index data =>
      ∃ groupIndex, items !! index = Some (ItemMember data groupIndex)
  | SeparatorElement index groupIndex =>
      isMultipleGroups = true ∧ items !! index = Some (ItemSeparator groupIndex)
  | NewGroupElement index =>
      isMultipleGroups = true ∧ lastIsItem items = true ∧ index = length items + 1
  end
  ∧ (isMultipleGroups = false →
     ∃ data groupIndex,
       el = UserElement (elementIndex el) data
       ∧ items !! elementIndex el = Some (ItemMember data groupIndex))
  ∧ ((length items <? elementIndex el) = true
     ↔ isMultipleGroups = true ∧ lastIsItem items = true
       ∧ el = NewGroupElement (length items + 1)).
Proof.
  unfold SortableList in Hin. apply elem_of_app in Hin as [Hin|Hin].
  - apply renderItems_elem in Hin as (n & item & Hlook & Hel).
    pose proof (lookup_lt_Some _ _ _ Hlook) as Hlt.
    destruct item as [data gi|gi].
    + subst el. simpl. split; [eauto|]. split; [eauto|]. split.
      * intros Hgt. apply Nat.ltb_lt in Hgt. lia.
      * by intros (_ & _ & ?).
    + destruct Hel as [-> ->]. simpl. split; [done|]. split; [done|]. split.
      * intros Hgt. apply Nat.ltb_lt in Hgt. lia.
      * by intros (_ & _ & ?).
  - destruct isMultipleGroups; simpl in Hin; [|by apply elem_of_nil in Hin].
    destruct (lastIsItem items) eqn:Hlast; [|by apply elem_of_nil in Hin].
    apply list_elem_of_singleton in Hin as ->. simpl.
    split; [done|]. split; [done|]. split; [done|].
    intros _. apply Nat.ltb_lt. lia.
Qed.

Lemma SortableList_targets_witness :
  NewGroupElement 4 ∈ SortableList (toPlainArray [["u1"; "u2"]%string]) true
  ∧ (length (toPlainArray [["u1"; "u2"]%string]) <? 4) = true.
Proof.
  assert (H : NewGroupElement 4 ∈ SortableList (toPlainArray [["u1"; "u2"]%string]) true)
    by (vm_compute; set_solver).
  split; [exact H|].
  exact (proj2 (proj2 (proj2 (SortableList_targets _ _ _ H)))
           (conj eq_refl (conj eq_refl eq_refl))).
Defined.






(** ** Reordering *)

Section reorder.
Context {A : Type}.

Lemma arrayMoveImmutable_Permutation (array : list A) (fromIndex toIndex : nat) :
  arrayMoveImmutable array fromIndex toIndex ≡ₚ array.
Proof.
  unfold arrayMoveImmutable. destruct (array !! fromIndex) as [item|] eqn:Hlook; [|done].
  rewrite (delete_Permutation array fromIndex item Hlook) at 3.
  rewrite <- Permutation_middle. by rewrite take_drop.
Qed.

Lemma arrayMoveImmutable_same (array : list A) (index : nat) :
  arrayMoveImmutable array index index = array.
Proof.
  unfold arrayMoveImmutable. destruct (array !! index) as [item|] eqn:Hlook; [|done].
  pose proof (lookup_lt_Some _ _ _ Hlook) as Hlt.
  rewrite delete_take_drop.
  rewrite take_app_length' by (rewrite length_take; lia).
  rewrite drop_app_length' by (rewrite length_take; lia).
  by apply take_drop_middle.
Qed.

Lemma arrayMoveImmutable_out_of_range (array : list A) (fromIndex toIndex : nat) :
  length array ≤ fromIndex → arrayMoveImmutable array fromIndex toIndex = array.
Proof.
  intros Hge. unfold arrayMoveImmutable. by rewrite lookup_ge_None_2.
Qed.

End reorder.

Lemma itemMembers_app (l1 l2 : list Item) :
  itemMembers (l1 ++ l2) = itemMembers l1 ++ itemMembers l2.
Proof. apply omap_app. Qed.

Lemma itemMembers_members (i : nat) (group : list UserPk) :
  itemMembers (map (λ memberId, ItemMember memberId i) group) = group.
Proof.
  induction group as [|u group IH]; [done|].
  change (u :: itemMembers (map (λ memberId, ItemMember memberId i) group) = u :: group).
  by rewrite IH.
Qed.

Lemma itemMembers_toPlainArrayFrom (i : nat) (groups : list (list UserPk)) :
  itemMembers (toPlainArrayFrom i groups) = concat groups.
Proof.
  revert i. induction groups as [|g groups IH]; intros i; [done|].
  cbn [toPlainArrayFrom].
  change (itemMembers (map (λ memberId, ItemMember memberId i) g
                       ++ toPlainArrayFrom (S i) groups) = g ++ concat groups).
  by rewrite itemMembers_app, itemMembers_members, IH.
Qed.

Lemma concat_unflattenItem (multiGroupMode : bool) (len currentIndex : nat)
    (memo : list (list UserPk)) (item : Item) :
  concat (unflattenItem multiGroupMode len memo currentIndex item)
  = concat memo ++ itemMembers [item].
Proof.
  destruct item as [u gi|gi]; unfold unflattenItem.
  - change (itemMembers [ItemMember u gi]) with [u].
    destruct (last memo) as [lastGroup|] eqn:Hlast.
    + apply last_Some in Hlast as [init ->].
      destruct (multiGroupMode && (currentIndex =? len - 1)).
      * rewrite !concat_app. simpl. by rewrite ?app_nil_r.
      * rewrite length_app. simpl length.
        replace (length init + 1 - 1) with (length init) by lia.
        rewrite insert_middle, !concat_app. simpl.
        by rewrite ?app_nil_r, <- ?app_assoc.
    + rewrite concat_app. simpl. by rewrite ?app_nil_r.
  - change (itemMembers [ItemSeparator gi]) with (@nil UserPk).
    rewrite concat_app. simpl. by rewrite ?app_nil_r.
Qed.

Lemma concat_unflattenFrom (multiGroupMode : bool) (len : nat) (items : list Item)
    (currentIndex : nat) (memo : list (list UserPk)) :
  concat (unflattenFrom multiGroupMode len items currentIndex memo)
  = concat memo ++ itemMembers items.
Proof.
  revert currentIndex memo. induction items as [|item items IH]; intros c memo;
    cbn [unflattenFrom].
  - unfold itemMembers. simpl. by rewrite app_nil_r.
  - rewrite IH, concat_unflattenItem, <- app_assoc. f_equal.
    unfold itemMembers. by destruct item.
Qed.

(** X12. A reorder loses and duplicates no user: the users of the group
    list [onSortEnd] passes to [onChange] are a permutation of the users
    of [value], whatever the two indices are. *)
Theorem onSortEnd_Permutation (props : UserGroupsProps) (oldIndex newIndex : nat) :
  concat (onSortEnd props oldIndex newIndex) ≡ₚ concat (value props).
Proof.
  unfold onSortEnd, fromPlainArray. rewrite concat_unflattenFrom. simpl.
  unfold itemMembers. rewrite arrayMoveImmutable_Permutation.
  apply reflexive_eq, itemMembers_toPlainArrayFrom.
Qed.

(** X13. A reorder that moves nothing gives the group list back: when an
    item is dropped at its own position, or when [oldIndex] is not a
    position of the flat array, and the target is not past the flat
    length, [onChange] receives a list equal to [value]. *)
Theorem onSortEnd_unchanged (props : UserGroupsProps) (oldIndex newIndex : nat)
    (Hsame : oldIndex = newIndex ∨ flatLength (value props) ≤ oldIndex)
    (Htarget : newIndex ≤ flatLength (value props)) :
  onSortEnd props oldIndex newIndex = value props.
Proof.
  unfold onSortEnd. rewrite toPlainArray_length.
  destruct (Nat.ltb_spec (flatLength (value props)) newIndex); [lia|].
  destruct Hsame as [->|Hout].
  - rewrite arrayMoveImmutable_same. apply fromPlainArray_toPlainArray_false.
  - rewrite arrayMoveImmutable_out_of_range by (by rewrite toPlainArray_length).
    apply fromPlainArray_toPlainArray_false.
Qed.

Lemma onSortEnd_unchanged_witness :
  (2 = 2 ∨ flatLength [["u1"; "u2"]; ["u3"]]%string ≤ 2)
  ∧ 2 ≤ flatLength [["u1"; "u2"]; ["u3"]]%string
  ∧ onSortEnd {| value := [["u1"; "u2"]; ["u3"]]%string; isMultipleGroups := true |} 2 2
    = [["u1"; "u2"]; ["u3"]]%string.
Proof.
  assert (Hsame : 2 = 2 ∨ flatLength [["u1"; "u2"]; ["u3"]]%string ≤ 2) by (by left).
  assert (Htarget : 2 ≤ flatLength [["u1"; "u2"]; ["u3"]]%string) by (vm_compute; lia).
  split; [exact Hsame|]. split; [exact Htarget|].
  exact (onSortEnd_unchanged
           {| value := [["u1"; "u2"]; ["u3"]]%string; isMultipleGroups := true |}
           2 2 Hsame Htarget).
Defined.

Lemma handleUserAdd_some_inv (value result : list (list UserPk)) (pk : option UserPk) :
  handleUserAdd value pk = Some result →
  ∃ key, pk = Some key ∧ key ≠ EmptyString ∧ concat result = concat value ++ [key].
Proof.
  destruct pk as [key|]; [|done]. intros Hcall. exists key. split; [done|].
  assert (Hkey : key ≠ EmptyString).
  { intros ->. unfold handleUserAdd in Hcall. by destruct (decide _). }
  split; [done|].
  destruct value as [|lastGroup init _] using rev_ind.
  - unfold handleUserAdd in Hcall. destruct (decide _); [done|]. by injection Hcall as <-.
  - rewrite handleUserAdd_snoc in Hcall by done. injection Hcall as <-.
    rewrite !concat_app. simpl. by rewrite !app_nil_r, <- app_assoc.
Qed.

Lemma handleDeleteUser_some_nonempty (value result : list (list UserPk)) (index : Z) :
  handleDeleteUser value index = Some result → Forall (λ group, group ≠ []) result.
Proof.
  intros Hcall. apply scanGroups_filtered in Hcall as [groups ->].
  apply Forall_forall. intros group Hin.
  apply list_elem_of_filter in Hin as [Hlen _]. by destruct group.
Qed.

End UserGroupsFacts.

(** * The override form and its preview requests *)

Module ScheduleOverrideFormFacts.
Import UserGroups ScheduleOverrideForm.

Section form_facts.
Context {DateTime : Type}.
Context (getUTCString : DateTime → string → string).
Context (getDateTime : string → string → DateTime).

Local Abbreviation params := (params getUTCString).
Local Abbreviation rerender := (rerender getUTCString).
Local Abbreviation onChange := (onChange getUTCString).
Local Abbreviation step := (step getUTCString getDateTime).
Local Abbreviation run := (run getUTCString getDateTime).
Local Abbreviation mount := (mount getUTCString getDateTime).
Local Abbreviation reachable := (reachable getUTCString getDateTime).
Local Abbreviation armed := (armed getUTCString).
Local Abbreviation changesAll := (changesAll getUTCString getDateTime).

Implicit Types (props : @Props DateTime) (st : @State DateTime).
Implicit Types (e : @Event DateTime) (trace : list (@Event DateTime)).

Lemma run_snoc props st trace e :
  run props st (trace ++ [e]) = step props (run props st trace) e.
Proof. unfold run, ScheduleOverrideForm.run. by rewrite foldl_app. Qed.

Lemma run_app props st trace trace' :
  run props st (trace ++ trace') = run props (run props st trace) trace'.
Proof. unfold run, ScheduleOverrideForm.run. by rewrite foldl_app. Qed.

(** A property that holds after mounting and is kept by every event holds
    in every reachable state. *)
Lemma reachable_ind props shifts (P : @State DateTime → Prop) :
  P (mount props shifts) →
  (∀ st e, P st → P (step props st e)) →
  ∀ st, reachable props shifts st → P st.
Proof.
  intros Hmount Hstep st [trace ->].
  induction trace as [|e trace IH] using rev_ind; [done|].
  rewrite run_snoc. by apply Hstep.
Qed.

(** ** The debounce timer *)

Lemma clearTimeout_stored (d : Debouncer) :
  timerInv d → clearTimeout (timeoutRef d) (timers d) = [].
Proof.
  intros [Hnone|(tm & Hone & Href)]; rewrite ?Hnone, ?Hone, ?Href.
  - by destruct (timeoutRef d).
  - simpl. rewrite filter_cons_False by (intros Hne; by apply Hne). done.
Qed.

(** After a call of the debounced callback its timeout is the only one. *)
Lemma debouncedCallback_timers (wait time : nat) (callback : Params) (d : Debouncer) :
  timerInv d →
  timers (debouncedCallback wait callback time d)
  = [{| timerId := nextTimerId d; deadline := time + wait; callbackParams := callback |}].
Proof. intros Hinv. unfold debouncedCallback. simpl. by rewrite clearTimeout_stored. Qed.

Lemma debouncedCallback_timerInv (wait time : nat) (callback : Params) (d : Debouncer) :
  timerInv d → timerInv (debouncedCallback wait callback time d).
Proof.
  intros Hinv. right. eexists. split; [by apply debouncedCallback_timers|done].
Qed.

Lemma fireDue_timerInv (t : nat) st :
  timerInv (debounce st) → timerInv (debounce (fireDue t st)).
Proof.
  intros [Hnone|(tm & Hone & Href)]; unfold fireDue, timerInv; simpl.
  - left. by rewrite Hnone.
  - rewrite Hone. destruct (decide (deadline tm ≤ t)) as [Hdue|Hnot].
    + left. by rewrite filter_cons_False by (intros Hn; by apply Hn).
    + right. exists tm. by rewrite filter_cons_True.
Qed.

Lemma resolve_debounce (rid : nat) st : debounce (resolve rid st) = debounce st.
Proof. unfold resolve. by destruct (filter _ _). Qed.

Lemma step_timerInv props st e :
  timerInv (debounce st) → timerInv (debounce (step props st e)).
Proof.
  intros Hinv. destruct e; simpl;
    try (by apply debouncedCallback_timerInv).
  - destruct (handleUserAdd _ _); [by apply debouncedCallback_timerInv|done].
  - destruct (handleDeleteUser _ _); [by apply debouncedCallback_timerInv|done].
  - destruct (decide _); [by apply fireDue_timerInv|done].
  - by rewrite resolve_debounce.
  - done.
Qed.

Lemma mount_timerInv props shifts : timerInv (debounce (mount props shifts)).
Proof.
  unfold mount, ScheduleOverrideForm.mount.
  destruct (shifts !! shiftId props); simpl.
  - apply debouncedCallback_timerInv, debouncedCallback_timerInv. by left.
  - apply debouncedCallback_timerInv. by left.
Qed.

Lemma reachable_timerInv props shifts st :
  reachable props shifts st → timerInv (debounce st).
Proof.
  apply (reachable_ind props shifts (λ st, timerInv (debounce st))).
  - apply mount_timerInv.
  - intros. by apply step_timerInv.
Qed.

(** ** The requests in flight *)

Lemma updatePreview_requestInv (p : Params) (time : nat) (n : Network) :
  requestInv n → requestInv (updatePreview p time n).
Proof.
  intros [Hnodup Hbound]. unfold requestInv, updatePreview. simpl. split.
  - rewrite fmap_app. simpl. apply NoDup_app. split; [done|]. split.
    + intros id Hin Hin'. apply list_elem_of_singleton in Hin' as ->.
      apply list_elem_of_fmap in Hin as (r & Hid & Hr).
      rewrite Forall_forall in Hbound. specialize (Hbound r Hr). lia.
    + apply NoDup_singleton.
  - apply Forall_app. split.
    + eapply Forall_impl; [exact Hbound|]. simpl. lia.
    + apply Forall_singleton. simpl. lia.
Qed.

Lemma fired_requestInv (due : list Timer) (n : Network) :
  requestInv n →
  requestInv (foldl (λ n tm, updatePreview (callbackParams tm) (deadline tm) n) n due).
Proof.
  revert n. induction due as [|tm due IH]; intros n Hinv; simpl; [done|].
  by apply IH, updatePreview_requestInv.
Qed.

Lemma settled_requestInv (rid next : nat) (log : list (nat * Params)) (done' : list Params)
    (n : Network) :
  requestInv n → nextRequestId n ≤ next →
  requestInv {| inflight := filter (λ r, requestId r ≠ rid) (inflight n);
                nextRequestId := next; requestLog := log; settleLog := done' |}.
Proof.
  intros [Hnodup Hbound] Hnext. unfold requestInv. simpl. split.
  - clear Hbound. induction (inflight n) as [|r l IH]; simpl; [constructor|].
    apply NoDup_cons in Hnodup as [Hnotin Hnodup].
    destruct (decide (requestId r ≠ rid)).
    + rewrite filter_cons_True by done. simpl. apply NoDup_cons. split; [|by apply IH].
      intros Hin. apply Hnotin.
      apply list_elem_of_fmap in Hin as (r' & Hid & Hr').
      apply list_elem_of_filter in Hr' as [_ Hr'].
      apply list_elem_of_fmap. eauto.
    + rewrite filter_cons_False by done. by apply IH.
  - apply Forall_forall. intros r Hr.
    apply list_elem_of_filter in Hr as [_ Hr].
    rewrite Forall_forall in Hbound. specialize (Hbound r Hr). lia.
Qed.

Lemma step_requestInv props st e :
  requestInv (net st) → requestInv (net (step props st e)).
Proof.
  intros Hinv. destruct e; simpl; try done.
  - by destruct (handleUserAdd _ _).
  - by destruct (handleDeleteUser _ _).
  - destruct (decide _); [|done]. simpl. by apply fired_requestInv.
  - unfold resolve. destruct (filter _ _) eqn:Hfound; [done|]. simpl.
    by apply settled_requestInv.
  - by apply settled_requestInv.
Qed.

Lemma mount_requestInv props shifts : requestInv (net (mount props shifts)).
Proof.
  assert (Hempty : requestInv emptyNetwork).
  { split; simpl; constructor. }
  unfold mount, ScheduleOverrideForm.mount.
  destruct (shifts !! shiftId props); simpl;
    destruct (decide _); try done; by apply updatePreview_requestInv.
Qed.

Lemma reachable_requestInv props shifts st :
  reachable props shifts st → requestInv (net st).
Proof.
  apply (reachable_ind props shifts (λ st, requestInv (net st))).
  - apply mount_requestInv.
  - intros. by apply step_requestInv.
Qed.

(** With distinct identifiers, looking a request up by its identifier
    finds that request and no other. *)
Lemma filter_requestId_absent (rid : nat) (l : list Request) :
  rid ∉ requestId <$> l → filter (λ r', requestId r' = rid) l = [].
Proof.
  induction l as [|r0 l IH]; intros Hnotin; [done|].
  rewrite fmap_cons, not_elem_of_cons in Hnotin. destruct Hnotin as [Hne Hnotin].
  rewrite filter_cons_False by (intros Heq; by apply Hne). by apply IH.
Qed.

Lemma filter_requestId (r : Request) (l : list Request) :
  NoDup (requestId <$> l) → r ∈ l →
  filter (λ r', requestId r' = requestId r) l = [r].
Proof.
  induction l as [|r0 l IH]; intros Hnodup Hin; [by apply elem_of_nil in Hin|].
  rewrite fmap_cons in Hnodup. apply NoDup_cons in Hnodup as [Hnotin Hnodup].
  apply elem_of_cons in Hin as [->|Hin].
  - rewrite filter_cons_True by done. f_equal. by apply filter_requestId_absent.
  - rewrite filter_cons_False; [by apply IH|].
    intros Heq. apply Hnotin. rewrite Heq. apply list_elem_of_fmap. eauto.
Qed.

(** ** Debouncing *)

Lemma filter_all {A} (P : A → Prop) `{∀ x, Decision (P x)} (l : list A) :
  Forall P l → filter P l = l.
Proof.
  induction 1 as [|x l Hx _ IH]; [done|]. by rewrite filter_cons_True, IH.
Qed.

Lemma filter_none {A} (P : A → Prop) `{∀ x, Decision (P x)} (l : list A) :
  Forall (λ x, ¬ P x) l → filter P l = [].
Proof.
  induction 1 as [|x l Hx _ IH]; [done|]. by rewrite filter_cons_False.
Qed.

(** A change of the snapshot renders again, which calls [handleChange]. *)
Lemma step_change props st e :
  changesParams st e = true → ∃ f, step props st e = rerender props f st.
Proof.
  destruct e; simpl; try discriminate; eauto.
  - destruct (handleUserAdd _ _); simpl; [eauto|discriminate].
  - destruct (handleDeleteUser _ _); simpl; [eauto|discriminate].
Qed.

Lemma rerender_armed props (f : FormState) st :
  timerInv (debounce st) →
  armed props (rerender props f st) (now st) ∧ net (rerender props f st) = net st.
Proof.
  intros Hinv. split; [|done]. split; [done|].
  exists (nextTimerId (debounce st)). simpl. split; [|done].
  by rewrite clearTimeout_stored.
Qed.

Lemma armed_timerInv props st t : armed props st t → timerInv (debounce st).
Proof. intros (_ & id & Htimers & Href). right. eexists. by split. Qed.

(** The clock moves and no timeout is due: nothing else changes. *)
Lemma tick_not_due props st t :
  now st ≤ t →
  Forall (λ tm, t < deadline tm) (timers (debounce st)) →
  step props st (Tick t)
  = {| form := form st; now := t; debounce := debounce st; net := net st |}.
Proof.
  intros Hnow Hdue. simpl. destruct (decide _); [|done]. unfold fireDue.
  rewrite filter_all, filter_none.
  - simpl. by destruct (debounce st).
  - eapply Forall_impl; [exact Hdue|]. simpl. lia.
  - eapply Forall_impl; [exact Hdue|]. simpl. lia.
Qed.

(** The clock reaches the deadline of the pending timeout: it fires and
    one request is sent, for the snapshot of the last change. *)
Lemma tick_fires props st t T :
  armed props st t → t + debounceWindow ≤ T →
  form (step props st (Tick T)) = form st
  ∧ now (step props st (Tick T)) = T
  ∧ timers (debounce (step props st (Tick T))) = []
  ∧ requestLog (net (step props st (Tick T)))
    = requestLog (net st) ++ [(t + debounceWindow, params props (form st))].
Proof.
  intros (Hnow & id & Htimers & Href) HT. simpl.
  destruct (decide _); [|unfold debounceWindow in *; lia].
  unfold fireDue. simpl. rewrite Htimers.
  rewrite filter_cons_False by (simpl; intros Hn; by apply Hn).
  rewrite filter_cons_True by done. done.
Qed.

(** A change at instant [t], no timeout being due yet: afterwards the
    only timeout is the one of this change, and nothing was sent. *)
Lemma change_at props st t e :
  timerInv (debounce st) → now st ≤ t →
  Forall (λ tm, t < deadline tm) (timers (debounce st)) →
  changesParams (step props st (Tick t)) e = true →
  armed props (step props (step props st (Tick t)) e) t
  ∧ net (step props (step props st (Tick t)) e) = net st.
Proof.
  intros Hinv Hnow Hdue Hchange.
  destruct (step_change props _ e Hchange) as [f ->].
  rewrite tick_not_due by done.
  by apply (rerender_armed props f
              {| form := form st; now := t; debounce := debounce st; net := net st |}).
Qed.

Lemma run_timed_cons props st (c : nat * Event) (rest : list (nat * Event)) :
  run props st (timed (c :: rest))
  = run props (step props (step props st (Tick c.1)) c.2) (timed rest).
Proof. done. Qed.

(** Changes that follow each other within the window keep replacing the
    pending timeout: nothing is sent during the burst. *)
Lemma burst_within props (rest : list (nat * Event)) st t tN :
  armed props st t →
  spaced withinWindow (t :: rest.*1) →
  changesAll props st rest →
  last (t :: rest.*1) = Some tN →
  armed props (run props st (timed rest)) tN
  ∧ net (run props st (timed rest)) = net st.
Proof.
  revert st t. induction rest as [|[t' e] rest IH]; intros st t Harmed Hspaced Hall Hlast.
  - simpl in Hlast. injection Hlast as <-. done.
  - rewrite run_timed_cons.
    destruct Hspaced as [[Hle Hlt] Hspaced]. destruct Hall as [Hchange Hall].
    cbn [fst snd fmap list_fmap] in *.
    pose proof Harmed as (Hnow & id & Htimers & Href).
    destruct (change_at props st t' e) as [Harmed' Hnet]; [by eapply armed_timerInv|lia|..|done|].
    { rewrite Htimers. apply Forall_singleton. simpl. done. }
    destruct (IH _ t' Harmed' Hspaced Hall) as [Hfinal Hnet']; [done|].
    split; [done|]. by rewrite Hnet'.
Qed.

(** Changes spaced by at least the window: the timeout of each change has
    fired, and sent its request, by the time of the next one. *)
Lemma burst_beyond props (rest : list (nat * Event)) st t tN :
  armed props st t →
  spaced beyondWindow (t :: rest.*1) →
  changesAll props st rest →
  last (t :: rest.*1) = Some tN →
  armed props (run props st (timed rest)) tN
  ∧ (requestLog (net (run props st (timed rest)))).*1 ++ [tN + debounceWindow]
    = (requestLog (net st)).*1 ++ ((λ t, t + debounceWindow) <$> t :: rest.*1).
Proof.
  revert st t. induction rest as [|[t' e] rest IH]; intros st t Harmed Hspaced Hall Hlast.
  - simpl in Hlast. injection Hlast as <-. done.
  - rewrite run_timed_cons.
    destruct Hspaced as [Hbeyond Hspaced]. destruct Hall as [Hchange Hall].
    unfold beyondWindow in Hbeyond. cbn [fst snd fmap list_fmap] in *.
    destruct (tick_fires props st t t' Harmed Hbeyond) as (Hform & Hnow & Htimers & Hlog).
    destruct (step_change props _ e Hchange) as [f Hstep].
    destruct (rerender_armed props f (step props st (Tick t'))) as [Harmed' Hnet].
    { left. exact Htimers. }
    rewrite Hnow in Harmed'.
    rewrite Hstep in Hall |- *.
    destruct (IH _ t' Harmed' Hspaced Hall) as [Hfinal Hlog']; [done|].
    split; [done|]. rewrite Hlog', Hnet, Hlog.
    rewrite fmap_app, <- app_assoc. done.
Qed.

(** C4. Starting in a reachable state where no timeout is due before the
    first change: after changes that follow each other within the 200 ms
    window, and once the window has elapsed, exactly one request has been
    sent, 200 ms after the last change and for the snapshot then current;
    after [N] changes spaced by the window or more, exactly [N] requests
    have been sent, one 200 ms after each change. *)
Theorem debounce_coalescing props shifts st (changes : list (nat * Event)) (t1 tN T : nat)
    (Hreach : reachable props shifts st)
    (Hfirst : head changes.*1 = Some t1)
    (Hlast : last changes.*1 = Some tN)
    (Hnow : now st ≤ t1)
    (Hidle : Forall (λ tm, t1 < deadline tm) (timers (debounce st)))
    (Hall : changesAll props st changes)
    (Hend : tN + debounceWindow ≤ T) :
  let st' := run props st (timed changes ++ [Tick T]) in
  (spaced withinWindow changes.*1 →
     requestLog (net st')
     = requestLog (net st) ++ [(tN + debounceWindow, params props (form st'))])
  ∧ (spaced beyondWindow changes.*1 →
     length (requestLog (net st')) = length (requestLog (net st)) + length changes
     ∧ (requestLog (net st')).*1
       = (requestLog (net st)).*1 ++ ((λ t, t + debounceWindow) <$> changes.*1)).
Proof.
  destruct changes as [|[t e] rest]; [done|].
  simpl in Hfirst. injection Hfirst as ->.
  destruct Hall as [Hchange Hall]. simpl in Hchange, Hall.
  pose proof (reachable_timerInv props shifts st Hreach) as Hinv.
  destruct (change_at props st t1 e Hinv Hnow Hidle Hchange) as [Harmed Hnet].
  intros st'. unfold st'. rewrite run_snoc, run_timed_cons. simpl fst. simpl snd.
  set (st1 := step props (step props st (Tick t1)) e) in *.
  split.
  - intros Hspaced.
    destruct (burst_within props rest st1 t1 tN Harmed Hspaced Hall Hlast) as [Hfinal Hnet'].
    destruct (tick_fires props _ tN T Hfinal Hend) as (Hform & _ & _ & Hlog).
    by rewrite Hlog, Hform, Hnet', Hnet.
  - intros Hspaced.
    destruct (burst_beyond props rest st1 t1 tN Harmed Hspaced Hall Hlast) as [Hfinal Hlog'].
    destruct (tick_fires props _ tN T Hfinal Hend) as (_ & _ & _ & Hlog).
    assert (Hinstants :
      (requestLog (net (step props (run props st1 (timed rest)) (Tick T)))).*1
      = (requestLog (net st)).*1 ++ ((λ t, t + debounceWindow) <$> ((t1, e) :: rest).*1)).
    { rewrite Hlog, fmap_app. simpl. rewrite Hlog', Hnet. done. }
    split; [|done].
    apply (f_equal length) in Hinstants.
    rewrite length_app, !length_fmap in Hinstants. done.
Qed.

(** ** The claims about the form *)

(** C8 (amended). In every reachable state at most one debounce timeout is
    pending. (Requests are another matter: nothing in the form waits for
    an earlier request before the next one is sent.) *)
Theorem at_most_one_timer props shifts st (Hreach : reachable props shifts st) :
  length (timers (debounce st)) ≤ 1.
Proof.
  destruct (reachable_timerInv props shifts st Hreach) as [->|(tm & -> & _)];
    simpl; lia.
Qed.

(** C2 (amended). When a request in flight is fulfilled, [isOpen] is set
    and the request is settled with its own snapshot, whatever the current
    snapshot is; [params] itself is left as it was. *)
Theorem resolve_sets_isOpen props shifts st (r : Request)
    (Hreach : reachable props shifts st) (Hin : r ∈ inflight (net st)) :
  let st' := step props st (Resolve (requestId r)) in
  isOpen (form st') = true
  ∧ settleLog (net st') = settleLog (net st) ++ [requestParams r]
  ∧ (r ∉ inflight (net st'))
  ∧ params props (form st') = params props (form st).
Proof.
  destruct (reachable_requestInv props shifts st Hreach) as [Hnodup _].
  simpl. unfold resolve. rewrite (filter_requestId r) by done. simpl.
  repeat split. intros Hin'. by apply list_elem_of_filter in Hin' as [Hne _].
Qed.

(** C9 (amended). After mounting, the group list is the single empty
    group [[[]]] of [useState], or the [rolling_users] of the stored
    override when the store already holds it; and as long as no engine
    operation has run it is that single empty group or the [rolling_users]
    of an override the form was hydrated from. *)
Theorem userGroups_before_engine props shifts trace
    (Hno : Forall (λ e, isEngine e = false) trace) :
  userGroups (form (mount props shifts))
  = match shifts !! shiftId props with
    | Some shift => Shift.rolling_users shift
    | None => [[]]
    end
  ∧ (userGroups (form (run props (mount props shifts) trace)) = [[]]
     ∨ ∃ shift,
         (shifts !! shiftId props = Some shift ∨ ShiftLoaded shift ∈ trace)
         ∧ userGroups (form (run props (mount props shifts) trace))
           = Shift.rolling_users shift).
Proof.
  assert (Hmount : userGroups (form (mount props shifts))
                   = match shifts !! shiftId props with
                     | Some shift => Shift.rolling_users shift
                     | None => [[]]
                     end).
  { unfold mount, ScheduleOverrideForm.mount. by destruct (shifts !! shiftId props). }
  split; [done|].
  induction trace as [|e trace IH] using rev_ind.
  - simpl. rewrite Hmount. destruct (shifts !! shiftId props); eauto.
  - apply Forall_app in Hno as [Hno He]. rewrite Forall_singleton in He.
    specialize (IH Hno). rewrite run_snoc.
    set (st := run props (mount props shifts) trace) in *.
    assert (Hkeep : userGroups (form (step props st e)) = userGroups (form st)
                    → userGroups (form (step props st e)) = [[]]
                      ∨ ∃ shift,
                          (shifts !! shiftId props = Some shift
                           ∨ ShiftLoaded shift ∈ trace ++ [e])
                          ∧ userGroups (form (step props st e))
                            = Shift.rolling_users shift).
    { intros ->. destruct IH as [?|(shift & [?|?] & ?)]; [by left|right..];
        exists shift; (split; [|done]); [by left|right].
      apply elem_of_app. by left. }
    destruct e as [?|?|? ?|?|?|shift|?|?|?]; simpl in He; try discriminate;
      try (by apply Hkeep).
    + right. exists shift. split; [|done]. right. apply elem_of_app. right.
      apply list_elem_of_singleton. done.
    + apply Hkeep. simpl. by destruct (decide _).
    + apply Hkeep. simpl. unfold resolve. by destruct (filter _ _).
Qed.

(** ** The error flag *)

Lemma showError_iff (f : @FormState DateTime) :
  showError f = true ↔ concat (userGroups f) = [].
Proof.
  unfold showError. induction (userGroups f) as [|group groups IH]; [done|].
  destruct group as [|u group]; simpl.
  - exact IH.
  - split; discriminate.
Qed.

(** X14. The error flag of the user list is raised exactly when no group
    holds a user. Hence it is down after every addition that calls
    [onChange], and after a deletion it is raised exactly when the group
    list has become the empty list. *)
Theorem showError_after_edit (f : @FormState DateTime) :
  (showError f = true ↔ Forall (λ group, group = []) (userGroups f))
  ∧ (∀ pk result,
       handleUserAdd (userGroups f) pk = Some result →
       showError (setUserGroups result f) = false)
  ∧ (∀ index result,
       handleDeleteUser (userGroups f) index = Some result →
       (showError (setUserGroups result f) = true ↔ result = [])).
Proof.
  split; [|split].
  - rewrite showError_iff. induction (userGroups f) as [|group groups IH]; [done|].
    simpl. rewrite Forall_cons. split.
    + intros Hnil. apply app_eq_nil in Hnil as [-> Hnil]. split; [done|]. by apply IH.
    + intros [-> Hall]. by apply IH.
  - intros pk result Hcall.
    apply UserGroupsFacts.handleUserAdd_some_inv in Hcall as (key & _ & _ & Hconcat).
    apply not_true_is_false. rewrite showError_iff. simpl. rewrite Hconcat.
    intros Hnil. by apply app_eq_nil in Hnil as [_ ?].
  - intros index result Hcall.
    apply UserGroupsFacts.handleDeleteUser_some_nonempty in Hcall.
    rewrite showError_iff. simpl. split; [|by intros ->].
    destruct Hcall as [|group groups Hgroup _]; [done|].
    intros Hnil. apply app_eq_nil in Hnil as [? _]. done.
Qed.

(** ** Opening *)

Lemma fired_settleLog (due : list Timer) (n : Network) :
  settleLog (foldl (λ n tm, updatePreview (callbackParams tm) (deadline tm) n) n due)
  = settleLog n.
Proof. revert n. induction due as [|tm due IH]; intros n; simpl; [done|]. by rewrite IH. Qed.

Lemma step_isOpen props st e :
  isOpen (form st) = true → isOpen (form (step props st e)) = true.
Proof.
  intros Hopen. destruct e; simpl; try done.
  - by destruct (handleUserAdd _ _).
  - by destruct (handleDeleteUser _ _).
  - by destruct (decide _).
  - unfold resolve. by destruct (filter _ _).
Qed.

(** X15. The form is open exactly when some preview request has been
    fulfilled: a rejected request, a timer or an edit never opens it. And
    once open it stays open, whatever happens next. *)
Theorem isOpen_iff_settled props shifts st (Hreach : reachable props shifts st) :
  (isOpen (form st) = true ↔ settleLog (net st) ≠ [])
  ∧ (∀ e, isOpen (form st) = true → isOpen (form (step props st e)) = true).
Proof.
  split; [|intros e; apply step_isOpen].
  revert st Hreach.
  apply (reachable_ind props shifts
           (λ st, isOpen (form st) = true ↔ settleLog (net st) ≠ [])).
  - unfold mount, ScheduleOverrideForm.mount.
    destruct (shifts !! shiftId props); simpl; by destruct (decide _).
  - intros st e IH. destruct e; simpl; try done.
    + by destruct (handleUserAdd _ _).
    + by destruct (handleDeleteUser _ _).
    + destruct (decide _); [|done]. simpl. by rewrite fired_settleLog.
    + unfold resolve. destruct (filter _ _); [done|]. simpl.
      split; [|done]. intros _ Hnil. by apply app_eq_nil in Hnil as [_ ?].
Qed.

(** ** What a request is sent for *)

Lemma resolve_params props (rid : nat) st :
  params props (form (resolve rid st)) = params props (form st).
Proof. unfold resolve. by destruct (filter _ _). Qed.

(** Pending timeouts carry the current snapshot. *)
Lemma rerender_timers_current props (f : FormState) st :
  timerInv (debounce st) →
  Forall (λ tm, callbackParams tm = params props f)
         (timers (debounce (rerender props f st))).
Proof.
  intros Hinv. simpl. rewrite clearTimeout_stored by done. by apply Forall_singleton.
Qed.

Lemma mount_timers_current props shifts :
  Forall (λ tm, callbackParams tm = params props (form (mount props shifts)))
         (timers (debounce (mount props shifts))).
Proof.
  unfold mount, ScheduleOverrideForm.mount.
  destruct (shifts !! shiftId props).
  - apply rerender_timers_current. apply debouncedCallback_timerInv. by left.
  - simpl. by apply Forall_singleton.
Qed.

Lemma step_timers_current props st e :
  timerInv (debounce st) →
  Forall (λ tm, callbackParams tm = params props (form st)) (timers (debounce st)) →
  Forall (λ tm, callbackParams tm = params props (form (step props st e)))
         (timers (debounce (step props st e))).
Proof.
  intros Hinv Hcur.
  destruct e; simpl; try (by apply rerender_timers_current); try done.
  - destruct (handleUserAdd _ _); [by apply rerender_timers_current|done].
  - destruct (handleDeleteUser _ _); [by apply rerender_timers_current|done].
  - destruct (decide _); [|done]. simpl.
    apply Forall_forall. intros tm Htm. apply list_elem_of_filter in Htm as [_ Htm].
    rewrite Forall_forall in Hcur. by apply Hcur.
  - rewrite resolve_debounce, resolve_params. done.
Qed.

Lemma reachable_timers_current props shifts st :
  reachable props shifts st →
  timerInv (debounce st)
  ∧ Forall (λ tm, callbackParams tm = params props (form st)) (timers (debounce st)).
Proof.
  apply (reachable_ind props shifts
           (λ st, timerInv (debounce st)
                  ∧ Forall (λ tm, callbackParams tm = params props (form st))
                           (timers (debounce st)))).
  - split; [apply mount_timerInv|apply mount_timers_current].
  - clear st. intros st e [Hinv Hcur].
    split; [by apply step_timerInv|by apply step_timers_current].
Qed.

(** X16. When the clock advances, at most one request is sent, and it is
    for the snapshot current at that moment: the debounced call never
    sends an outdated snapshot (a request can only become stale while in
    flight). *)
Theorem tick_sends_current props shifts st (t : nat)
    (Hreach : reachable props shifts st) (Hnow : now st ≤ t) :
  ∃ sent,
    requestLog (net (step props st (Tick t))) = requestLog (net st) ++ sent
    ∧ length sent ≤ 1
    ∧ Forall (λ request, request.2 = params props (form st)) sent.
Proof.
  destruct (reachable_timers_current props shifts st Hreach) as [Hinv Hcur].
  simpl. destruct (decide _); [|done]. unfold fireDue. simpl.
  destruct Hinv as [Hnone|(tm & Hone & _)].
  - exists []. rewrite Hnone. simpl. rewrite app_nil_r.
    split; [done|]. split; [lia|constructor].
  - rewrite Hone in Hcur |- *. rewrite Forall_singleton in Hcur.
    destruct (decide (deadline tm ≤ t)).
    + exists [(deadline tm, callbackParams tm)].
      rewrite filter_cons_True by done. simpl. split; [done|]. split; [lia|].
      apply Forall_singleton. exact Hcur.
    + exists []. rewrite filter_cons_False by done. simpl. rewrite app_nil_r.
      split; [done|]. split; [lia|constructor].
Qed.

(** ** After the last request *)



(** ** The first requests *)

Lemma mount_armed props shifts : armed props (mount props shifts) 0.
Proof.
  unfold mount, ScheduleOverrideForm.mount.
  destruct (shifts !! shiftId props) as [shift|].
  - match goal with
    | |- armed _ (rerender _ ?f ?st0) _ =>
        apply (proj1 (rerender_armed props f st0 ltac:(apply debouncedCallback_timerInv; by left)))
    end.
  - split; [done|]. by exists 0.
Qed.

Lemma mount_requestLog props shifts :
  requestLog (net (mount props shifts))
  = if decide (shiftId props = "new"%string)
    then [(0, params props (initialForm props))]
    else [].
Proof.
  unfold mount, ScheduleOverrideForm.mount.
  destruct (shifts !! shiftId props); simpl; by destruct (decide _).
Qed.

(** X18. With no edit, a form sends its first debounced request 200 ms
    after mounting, for the snapshot it then shows. A new override has
    sent one more before, at mount and for the initial snapshot: two
    requests, for the same snapshot when the store holds no shift under
    its identifier. A stored override sends nothing at mount. *)
Theorem first_requests props shifts (T : nat) (Hwindow : debounceWindow ≤ T) :
  requestLog (net (run props (mount props shifts) [Tick T]))
  = (if decide (shiftId props = "new"%string)
     then [(0, params props (initialForm props))]
     else [])
    ++ [(debounceWindow, params props (form (mount props shifts)))]
  ∧ (shifts !! shiftId props = None → form (mount props shifts) = initialForm props).
Proof.
  split.
  - destruct (tick_fires props (mount props shifts) 0 T (mount_armed props shifts) Hwindow)
      as (_ & _ & _ & Hlog).
    change (run props (mount props shifts) [Tick T])
      with (step props (mount props shifts) (Tick T)).
    by rewrite Hlog, mount_requestLog.
  - intros Hnone. unfold mount, ScheduleOverrideForm.mount. by rewrite Hnone.
Qed.

(** ** Submitting *)

(** X19. Once no debounce timeout is pending, what the Create/Update
    button submits ([createRotation] for a new override, [updateRotation]
    otherwise) carries the snapshot of the most recent preview request. *)
Theorem handleCreate_submits_last_preview (scheduleId : string) props shifts st
    (Hreach : reachable props shifts st)
    (Hquiet : timers (debounce st) = []) :
  ∃ t, last (requestLog (net st))
       = Some (t, callParams (handleCreate getUTCString scheduleId props (form st))).
Proof.
  assert (Hparams : callParams (handleCreate getUTCString scheduleId props (form st))
                    = params props (form st)).
  { unfold handleCreate. by destruct (decide _). }
  rewrite Hparams. clear Hparams. revert Hquiet.
  assert (Hboth : reachable props shifts st →
            (timerInv (debounce st)
             ∧ Forall (λ tm, callbackParams tm = params props (form st))
                      (timers (debounce st)))
            ∧ (timers (debounce st) = [] →
               ∃ t, last (requestLog (net st)) = Some (t, params props (form st)))).
  2:{ by apply Hboth. }
  clear Hreach.
  apply (reachable_ind props shifts
           (λ st, (timerInv (debounce st)
                   ∧ Forall (λ tm, callbackParams tm = params props (form st))
                            (timers (debounce st)))
                  ∧ (timers (debounce st) = [] →
                     ∃ t, last (requestLog (net st)) = Some (t, params props (form st))))).
  - split; [split; [apply mount_timerInv|apply mount_timers_current]|].
    destruct (mount_armed props shifts) as (_ & id & Htimers & _).
    intros Hnil. by rewrite Htimers in Hnil.
  - clear st. intros st e [[Hinv Hcur] Hlast].
    assert (Hrerender : ∀ f,
              timers (debounce (rerender props f st)) = [] →
              ∃ t, last (requestLog (net (rerender props f st)))
                   = Some (t, params props (form (rerender props f st)))).
    { intros f. simpl. rewrite clearTimeout_stored by done. done. }
    split; [split; [by apply step_timerInv|by apply step_timers_current]|].
    destruct e; simpl; try (by apply Hrerender); try done.
    + destruct (handleUserAdd _ _); [by apply Hrerender|done].
    + destruct (handleDeleteUser _ _); [by apply Hrerender|done].
    + destruct (decide _); [|done]. simpl. intros Hfiltered.
      destruct Hinv as [Hnone|(tm & Hone & _)].
      * rewrite Hnone. simpl. by apply Hlast.
      * rewrite Hone in Hfiltered, Hcur |- *. rewrite Forall_singleton in Hcur.
        destruct (decide (deadline tm ≤ t)).
        -- rewrite filter_cons_True by done. simpl. rewrite last_snoc, Hcur. eauto.
        -- by rewrite filter_cons_True in Hfiltered.
    + rewrite resolve_debounce, resolve_params. unfold resolve.
      destruct (filter _ _); [done|]. simpl. done.
Qed.

End form_facts.

(** C8, as stated, fails for requests: a new override sends a request when
    it mounts, and the debounced call of the first render sends a second
    one 200 ms later while the first may still be unsettled. *)
Lemma two_requests_in_flight :
  let st := run stringOfDate dateOfString newOverride
              (mount stringOfDate dateOfString newOverride ∅) [Tick 200] in
  reachable stringOfDate dateOfString newOverride ∅ st
  ∧ length (inflight (net st)) = 2
  ∧ ¬ length (inflight (net st)) ≤ 1.
Proof.
  split; [by eexists|]. split; [reflexivity|]. vm_compute. lia.
Qed.

Lemma at_most_one_timer_witness :
  reachable stringOfDate dateOfString newOverride ∅
    (run stringOfDate dateOfString newOverride
       (mount stringOfDate dateOfString newOverride ∅)
       [Tick 50; SetShiftStart "2022-06-02 09:00:00"%string])
  ∧ length (timers (debounce
       (run stringOfDate dateOfString newOverride
          (mount stringOfDate dateOfString newOverride ∅)
          [Tick 50; SetShiftStart "2022-06-02 09:00:00"%string]))) ≤ 1.
Proof.
  assert (H : reachable stringOfDate dateOfString newOverride ∅
    (run stringOfDate dateOfString newOverride
       (mount stringOfDate dateOfString newOverride ∅)
       [Tick 50; SetShiftStart "2022-06-02 09:00:00"%string])) by (by eexists).
  split; [exact H|].
  exact (at_most_one_timer stringOfDate dateOfString newOverride ∅ _ H).
Defined.

(** C2, as stated, fails. A new override sends request 0 when it mounts
    and request 1 when the first debounce timeout fires, both for the
    initial snapshot A. Request 1 is fulfilled and the form opens; the
    start date is then changed, so that another snapshot is current; when
    the slow request 0 is fulfilled, its callback runs all the same. *)
Lemma stale_result_settles :
  let A := params stringOfDate newOverride (initialForm newOverride) in
  let st := run stringOfDate dateOfString newOverride
              (mount stringOfDate dateOfString newOverride ∅)
              [Tick 200; Resolve 1; Tick 300;
               SetShiftStart "2022-06-02 09:00:00"%string; Tick 400] in
  let st' := step stringOfDate dateOfString newOverride st (Resolve 0) in
  inflight (net st) = [{| requestId := 0; requestParams := A |}]
  ∧ params stringOfDate newOverride (form st) ≠ A
  ∧ settleLog (net st) = [A]
  ∧ settleLog (net st') = [A; A]
  ∧ isOpen (form st') = true.
Proof. repeat split. vm_compute. discriminate. Qed.

Lemma resolve_sets_isOpen_witness :
  reachable stringOfDate dateOfString newOverride ∅
    (run stringOfDate dateOfString newOverride
       (mount stringOfDate dateOfString newOverride ∅)
       [Tick 200; Resolve 1; Tick 300;
        SetShiftStart "2022-06-02 09:00:00"%string; Tick 400])
  ∧ {| requestId := 0;
       requestParams := params stringOfDate newOverride (initialForm newOverride) |}
    ∈ inflight (net
        (run stringOfDate dateOfString newOverride
           (mount stringOfDate dateOfString newOverride ∅)
           [Tick 200; Resolve 1; Tick 300;
            SetShiftStart "2022-06-02 09:00:00"%string; Tick 400]))
  ∧ isOpen (form
      (step stringOfDate dateOfString newOverride
         (run stringOfDate dateOfString newOverride
            (mount stringOfDate dateOfString newOverride ∅)
            [Tick 200; Resolve 1; Tick 300;
             SetShiftStart "2022-06-02 09:00:00"%string; Tick 400])
         (Resolve 0))) = true.
Proof.
  pose (A := params stringOfDate newOverride (initialForm newOverride)).
  pose (st := run stringOfDate dateOfString newOverride
                (mount stringOfDate dateOfString newOverride ∅)
                [Tick 200; Resolve 1; Tick 300;
                 SetShiftStart "2022-06-02 09:00:00"%string; Tick 400]).
  assert (Hreach : reachable stringOfDate dateOfString newOverride ∅ st) by (by eexists).
  assert (Hin : {| requestId := 0; requestParams := A |} ∈ inflight (net st))
    by apply list_elem_of_here.
  split; [exact Hreach|]. split; [exact Hin|].
  exact (proj1 (resolve_sets_isOpen stringOfDate dateOfString newOverride ∅ st _ Hreach Hin)).
Defined.

(** C9, as stated, fails for a new override: the group list starts as one
    empty group, not as the empty sequence of groups. *)
Lemma new_override_userGroups :
  shiftId newOverride = "new"%string
  ∧ userGroups (form (mount stringOfDate dateOfString newOverride ∅)) = [[]]
  ∧ userGroups (form (mount stringOfDate dateOfString newOverride ∅)) ≠ [].
Proof. repeat split. vm_compute. discriminate. Qed.

Lemma userGroups_before_engine_witness :
  Forall (λ e : @Event string, isEngine e = false) [Tick 10; ShiftLoaded storedShift]
  ∧ userGroups (form (mount stringOfDate dateOfString storedOverride
                        {[ "O7"%string := storedShift ]}))
    = [["u1"; "u2"]]%string.
Proof.
  assert (H : Forall (λ e : @Event string, isEngine e = false)
                [Tick 10; ShiftLoaded storedShift])
    by (repeat constructor).
  split; [exact H|].
  exact (proj1 (userGroups_before_engine stringOfDate dateOfString storedOverride
                  {[ "O7"%string := storedShift ]} _ H)).
Defined.

(** The scenario of the specification: changes at 0, 50 and 250 ms give
    two requests, at 250 ms and at 450 ms. *)
Lemma debounce_scenario :
  let st := run stringOfDate dateOfString storedOverride
              (mount stringOfDate dateOfString storedOverride ∅)
              (timed [(0, SetShiftStart "a"%string); (50, SetShiftStart "b"%string);
                      (250, SetShiftEnd "c"%string)] ++ [Tick 1000]) in
  (requestLog (net st)).*1 = [250; 450].
Proof. reflexivity. Qed.

Lemma debounce_coalescing_witness :
  reachable stringOfDate dateOfString storedOverride ∅
    (mount stringOfDate dateOfString storedOverride ∅)
  ∧ spaced withinWindow [20; 70; 120]
  ∧ (requestLog (net
       (run stringOfDate dateOfString storedOverride
          (mount stringOfDate dateOfString storedOverride ∅)
          (timed [(20, SetShiftStart "2022-06-02 09:00:00"%string);
                  (70, UserAdd (Some "u1"%string));
                  (120, DeleteUser 1)] ++ [Tick 320])))).*1
    = [320].
Proof.
  pose (st0 := mount stringOfDate dateOfString storedOverride ∅).
  pose (changes := [(20, SetShiftStart "2022-06-02 09:00:00"%string);
                    (70, UserAdd (Some "u1"%string));
                    (120, @DeleteUser string 1)]).
  assert (Hreach : reachable stringOfDate dateOfString storedOverride ∅ st0)
    by (by exists []).
  assert (Hspaced : spaced withinWindow changes.*1)
    by (vm_compute; repeat split; lia).
  split; [exact Hreach|]. split; [exact Hspaced|].
  assert (Hidle : Forall (λ tm, 20 < deadline tm) (timers (debounce st0)))
    by (vm_compute; repeat constructor).
  assert (Hall : changesAll stringOfDate dateOfString storedOverride st0 changes)
    by (vm_compute; repeat split).
  assert (Hnow : now st0 ≤ 20) by (vm_compute; lia).
  assert (Hend : 120 + debounceWindow ≤ 320) by (vm_compute; lia).
  exact (f_equal (fmap fst)
           (proj1 (debounce_coalescing stringOfDate dateOfString storedOverride ∅
                     st0 changes 20 120 320 Hreach eq_refl eq_refl Hnow Hidle Hall Hend)
              Hspaced)).
Defined.

Lemma isOpen_iff_settled_witness :
  reachable stringOfDate dateOfString storedOverride ∅
    (run stringOfDate dateOfString storedOverride
       (mount stringOfDate dateOfString storedOverride ∅) [Tick 200; Reject 0])
  ∧ isOpen (form (run stringOfDate dateOfString storedOverride
                    (mount stringOfDate dateOfString storedOverride ∅)
                    [Tick 200; Reject 0])) ≠ true.
Proof.
  assert (H : reachable stringOfDate dateOfString storedOverride ∅
    (run stringOfDate dateOfString storedOverride
       (mount stringOfDate dateOfString storedOverride ∅) [Tick 200; Reject 0]))
    by (by eexists).
  split; [exact H|].
  intros Hopen.
  exact (proj1 (proj1 (isOpen_iff_settled stringOfDate dateOfString storedOverride ∅ _ H))
           Hopen eq_refl).
Defined.

Lemma tick_sends_current_witness :
  reachable stringOfDate dateOfString storedOverride ∅
    (run stringOfDate dateOfString storedOverride
       (mount stringOfDate dateOfString storedOverride ∅)
       [Tick 100; UserAdd (Some "u1"%string)])
  ∧ now (run stringOfDate dateOfString storedOverride
           (mount stringOfDate dateOfString storedOverride ∅)
           [Tick 100; UserAdd (Some "u1"%string)]) ≤ 300
  ∧ ∃ sent,
      requestLog (net (step stringOfDate dateOfString storedOverride
                         (run stringOfDate dateOfString storedOverride
                            (mount stringOfDate dateOfString storedOverride ∅)
                            [Tick 100; UserAdd (Some "u1"%string)])
                         (Tick 300)))
      = requestLog (net (run stringOfDate dateOfString storedOverride
                           (mount stringOfDate dateOfString storedOverride ∅)
                           [Tick 100; UserAdd (Some "u1"%string)])) ++ sent
      ∧ length sent ≤ 1
      ∧ Forall (λ request,
                  request.2
                  = params stringOfDate storedOverride
                      (form (run stringOfDate dateOfString storedOverride
                               (mount stringOfDate dateOfString storedOverride ∅)
                               [Tick 100; UserAdd (Some "u1"%string)]))) sent.
Proof.
  assert (H : reachable stringOfDate dateOfString storedOverride ∅
    (run stringOfDate dateOfString storedOverride
       (mount stringOfDate dateOfString storedOverride ∅)
       [Tick 100; UserAdd (Some "u1"%string)])) by (by eexists).
  assert (Hnow : now (run stringOfDate dateOfString storedOverride
           (mount stringOfDate dateOfString storedOverride ∅)
           [Tick 100; UserAdd (Some "u1"%string)]) ≤ 300) by (vm_compute; lia).
  split; [exact H|]. split; [exact Hnow|].
  exact (tick_sends_current stringOfDate dateOfString storedOverride ∅ _ 300 H Hnow).
Defined.


Lemma first_requests_witness :
  debounceWindow ≤ 200
  ∧ (requestLog (net (run stringOfDate dateOfString newOverride
                        (mount stringOfDate dateOfString newOverride ∅) [Tick 200]))).*1
    = [0; 200].
Proof.
  assert (H : debounceWindow ≤ 200) by (vm_compute; lia).
  split; [exact H|].
  exact (f_equal (fmap fst)
           (proj1 (first_requests stringOfDate dateOfString newOverride ∅ 200 H))).
Defined.

Lemma handleCreate_submits_last_preview_witness :
  reachable stringOfDate dateOfString storedOverride ∅
    (run stringOfDate dateOfString storedOverride
       (mount stringOfDate dateOfString storedOverride ∅)
       [Tick 100; UserAdd (Some "u1"%string); Tick 300])
  ∧ timers (debounce
      (run stringOfDate dateOfString storedOverride
         (mount stringOfDate dateOfString storedOverride ∅)
         [Tick 100; UserAdd (Some "u1"%string); Tick 300])) = []
  ∧ ∃ t, last (requestLog (net
           (run stringOfDate dateOfString storedOverride
              (mount stringOfDate dateOfString storedOverride ∅)
              [Tick 100; UserAdd (Some "u1"%string); Tick 300])))
         = Some (t, callParams
                      (handleCreate stringOfDate "S1" storedOverride
                         (form (run stringOfDate dateOfString storedOverride
                                  (mount stringOfDate dateOfString storedOverride ∅)
                                  [Tick 100; UserAdd (Some "u1"%string); Tick 300])))).
Proof.
  assert (H : reachable stringOfDate dateOfString storedOverride ∅
    (run stringOfDate dateOfString storedOverride
       (mount stringOfDate dateOfString storedOverride ∅)
       [Tick 100; UserAdd (Some "u1"%string); Tick 300])) by (by eexists).
  assert (Hquiet : timers (debounce
      (run stringOfDate dateOfString storedOverride
         (mount stringOfDate dateOfString storedOverride ∅)
         [Tick 100; UserAdd (Some "u1"%string); Tick 300])) = []) by reflexivity.
  split; [exact H|]. split; [exact Hquiet|].
  exact (handleCreate_submits_last_preview stringOfDate dateOfString "S1"
           storedOverride ∅ _ H Hquiet).
Defined.

Lemma showError_after_edit_witness :
  handleDeleteUser
    (userGroups (setUserGroups [["u1"%string]] (initialForm storedOverride))) 1
  = Some []
  ∧ showError (setUserGroups [] (setUserGroups [["u1"%string]] (initialForm storedOverride)))
    = true.
Proof.
  assert (H : handleDeleteUser
                (userGroups (setUserGroups [["u1"%string]] (initialForm storedOverride))) 1
              = Some []) by reflexivity.
  split; [exact H|].
  exact (proj2 (proj2 (proj2 (showError_after_edit
                                (setUserGroups [["u1"%string]] (initialForm storedOverride))))
                        1%Z [] H) eq_refl).
Defined.

End ScheduleOverrideFormFacts.
